(** * envflag: flags from the argument list and from the environment

A shallow embedding of [envflag.go] (package envflag) together with the
part of Go's standard packages [strings], [strconv] and [flag] that
[Parse], [env] and [isBoolFlag] call.  Go strings are byte strings and are
modelled by [string]; Go maps are modelled by [gmap]. *)

From Stdlib Require Import ZArith NArith Ascii String List Lia Permutation DecimalString.
From stdpp Require Import base option list gmap strings fin_maps fin_sets.

Local Open Scope string_scope.
Local Open Scope list_scope.

Set Warnings "-clear-no-such-hyp".

(** ** Package strings *)

(** [strings.ToUpper] and [strings.ToLower] take a byte-wise fast path when
    every byte of the argument is below [utf8.RuneSelf] (0x80) and otherwise
    call [strings.Map] with the Unicode case tables.  The tables are not part
    of this repository: they are a parameter of the development. *)
Class UnicodeTables := {
  mapToUpper : string → string;   (* strings.Map(unicode.ToUpper, s) *)
  mapToLower : string → string    (* strings.Map(unicode.ToLower, s) *)
}.

Module Strings.

Definition byte_lt (c : ascii) (n : N) : bool := (N_of_ascii c <? n)%N.

Definition in_range (lo hi : N) (c : ascii) : bool :=
  ((lo <=? N_of_ascii c) && (N_of_ascii c <=? hi))%N.

Definition is_lower_byte : ascii → bool := in_range 97 122.
Definition is_upper_byte : ascii → bool := in_range 65 90.

(** [c -= 'a' - 'A'] for ['a' <= c <= 'z']. *)
Definition upper_byte (c : ascii) : ascii :=
  if is_lower_byte c then ascii_of_N (N_of_ascii c - 32) else c.

(** [c += 'a' - 'A'] for ['A' <= c <= 'Z']. *)
Definition lower_byte (c : ascii) : ascii :=
  if is_upper_byte c then ascii_of_N (N_of_ascii c + 32) else c.

Fixpoint map_bytes (f : ascii → ascii) (s : string) : string :=
  match s with
  | EmptyString => EmptyString
  | String c s' => String (f c) (map_bytes f s')
  end.

Fixpoint isASCII (s : string) : bool :=
  match s with
  | EmptyString => true
  | String c s' => byte_lt c 128 && isASCII s'
  end.

Definition ToUpper `{UnicodeTables} (s : string) : string :=
  if isASCII s then map_bytes upper_byte s else mapToUpper s.

Definition ToLower `{UnicodeTables} (s : string) : string :=
  if isASCII s then map_bytes lower_byte s else mapToLower s.

(** [strings.Replace(s, old, new, -1)] for one-byte [old] and [new], the
    only way [env] calls it: every occurrence of the byte is replaced. *)
Definition Replace (s : string) (old new : ascii) : string :=
  map_bytes (λ c, if Ascii.eqb c old then new else c) s.

(** [strings.HasPrefix(s, "-")] and [strings.Contains(s, "=")]. *)
Definition starts_with (c : ascii) (s : string) : bool :=
  match s with
  | String c' _ => Ascii.eqb c' c
  | EmptyString => false
  end.

Fixpoint contains_byte (c : ascii) (s : string) : bool :=
  match s with
  | EmptyString => false
  | String c' s' => Ascii.eqb c' c || contains_byte c s'
  end.

End Strings.

(** ** Package envflag: the environment key *)

(** The process environment, as [os.LookupEnv] reads it: a variable set to
    the empty string is present. *)
Abbreviation Environ := (gmap string string).

Section EnvKey.
Context `{UnicodeTables}.

(** The key computed by the first three lines of [env]. *)
Definition envKey (name : string) : string :=
  let key := Strings.ToUpper name in
  let key := Strings.Replace key "." "_" in
  let key := Strings.Replace key "-" "_" in
  key.

(** [func env(name string) (string, bool)]: [None] is [ok == false]. *)
Definition env (environ : Environ) (name : string) : option string :=
  environ !! envKey name.

End EnvKey.

(** ** Package strconv *)

(** [int] and [uint] are 64 bits wide ([strconv.IntSize] is 64). *)

Module Strconv.

Inductive NumError := ErrSyntax | ErrRange.

(** [strconv.ParseBool]. *)
Definition ParseBool (str : string) : bool * option NumError :=
  if bool_decide (str ∈ ["1"; "t"; "T"; "true"; "TRUE"; "True"]) then (true, None)
  else if bool_decide (str ∈ ["0"; "f"; "F"; "false"; "FALSE"; "False"]) then (false, None)
  else (false, Some ErrSyntax).

Definition FormatBool (b : bool) : string := if b then "true" else "false".

Definition byte (c : ascii) : Z := Z.of_N (N_of_ascii c).

(** [lower(c) = c | ('x' - 'X')]. *)
Definition lower (c : ascii) : Z := Z.lor (byte c) 32.

Definition maxUint64 : Z := 2 ^ 64 - 1.

Definition is_digit (hex : bool) (c : ascii) : bool :=
  ((48 <=? byte c) && (byte c <=? 57)
   || hex && (97 <=? lower c) && (lower c <=? 102))%Z.

(** The loop of [underscoreOK]; [saw] is the last kind of byte seen:
    ["^"] start, ["0"] digit or base prefix, ["_"] underscore, ["!"] other. *)
Fixpoint underscoreOK_loop (hex : bool) (saw : ascii) (s : string) : bool :=
  match s with
  | EmptyString => negb (Ascii.eqb saw "_")
  | String c s' =>
      if is_digit hex c then underscoreOK_loop hex "0" s'
      else if Ascii.eqb c "_" then
        if negb (Ascii.eqb saw "0") then false else underscoreOK_loop hex "_" s'
      else if Ascii.eqb saw "_" then false
      else underscoreOK_loop hex "!" s'
  end.

Definition underscoreOK (s : string) : bool :=
  let s := match s with
           | String c s' => if Ascii.eqb c "-" || Ascii.eqb c "+" then s' else s
           | EmptyString => s
           end in
  match s with
  | String c0 (String c1 s') =>
      if Ascii.eqb c0 "0"
         && ((lower c1 =? 98) || (lower c1 =? 111) || (lower c1 =? 120))%Z
      then underscoreOK_loop (lower c1 =? 120)%Z "0" s'
      else underscoreOK_loop false "^" s
  | _ => underscoreOK_loop false "^" s
  end.

(** The digit loop of [ParseUint] with [base0] true and [bitSize] 64;
    [n] is the accumulator, a [uint64]. *)
Fixpoint ParseUint_loop (base : Z) (underscores : bool) (n : Z) (s : string)
  : Z * option NumError * bool :=
  match s with
  | EmptyString => (n, None, underscores)
  | String c s' =>
      if Ascii.eqb c "_" then ParseUint_loop base true n s'
      else
        let d := if ((48 <=? byte c) && (byte c <=? 57))%Z then Some (byte c - 48)%Z
                 else if ((97 <=? lower c) && (lower c <=? 122))%Z
                      then Some (lower c - 97 + 10)%Z
                      else None in
        match d with
        | None => (0, Some ErrSyntax, underscores)%Z
        | Some d =>
            if (d >=? base)%Z then (0, Some ErrSyntax, underscores)%Z
            else if (n >=? maxUint64 / base + 1)%Z
                 then (maxUint64, Some ErrRange, underscores)
            else
              let n := (n * base)%Z in
              let n1 := ((n + d) mod 2 ^ 64)%Z in
              if ((n1 <? n) || (n1 >? maxUint64))%Z
              then (maxUint64, Some ErrRange, underscores)
              else ParseUint_loop base underscores n1 s'
        end
  end.

(** [strconv.ParseUint(s, 0, 64)]. *)
Definition ParseUint (s : string) : Z * option NumError :=
  match s with
  | EmptyString => (0%Z, Some ErrSyntax)
  | String c0 rest =>
      let '(base, digits) :=
        if Ascii.eqb c0 "0" then
          match rest with
          | String c1 ((String _ _) as s2) =>
              if (lower c1 =? 98)%Z then (2, s2)
              else if (lower c1 =? 111)%Z then (8, s2)
              else if (lower c1 =? 120)%Z then (16, s2)
              else (8, rest)
          | _ => (8, rest)
          end%Z
        else (10%Z, s) in
      let '(n, err, underscores) := ParseUint_loop base false 0 digits in
      match err with
      | Some e => (n, Some e)
      | None =>
          if underscores && negb (underscoreOK s) then (0%Z, Some ErrSyntax)
          else (n, None)
      end
  end.

(** Conversion of a [uint64] or an integer expression to [int64]. *)
Definition int64 (z : Z) : Z := ((z + 2 ^ 63) mod 2 ^ 64 - 2 ^ 63)%Z.

(** [strconv.ParseInt(s, 0, 64)]. *)
Definition ParseInt (s : string) : Z * option NumError :=
  match s with
  | EmptyString => (0%Z, Some ErrSyntax)
  | String c0 rest =>
      let '(neg, s') :=
        if Ascii.eqb c0 "+" then (false, rest)
        else if Ascii.eqb c0 "-" then (true, rest)
        else (false, s) in
      match ParseUint s' with
      | (_, Some ErrSyntax) => (0%Z, Some ErrSyntax)
      | (un, _) =>
          let cutoff := (2 ^ 63)%Z in
          if negb neg && (un >=? cutoff)%Z then ((cutoff - 1)%Z, Some ErrRange)
          else if neg && (un >? cutoff)%Z then ((- cutoff)%Z, Some ErrRange)
          else
            let n := int64 un in
            (if neg then int64 (- n) else n, None)
      end
  end.

(** [strconv.Itoa]. *)
Definition Itoa (z : Z) : string :=
  DecimalString.NilZero.string_of_int (Z.to_int z).

End Strconv.

(** ** Package flag *)

(** The model covers flag sets whose error handling is [ContinueOnError] (as
    in the test suite): a failing [FlagSet.Parse] returns its error.  What
    [failf] and [usage] print is not modelled. *)

Module Flag.

(** The errors a [Value]'s [Set] method returns: [errParse] and [errRange]
    are the package's own, [errCustom] stands for any other error. *)
Inductive SetError := errParse | errRange | errCustom (msg : string).

(** [numError]. *)
Definition numError (e : Strconv.NumError) : SetError :=
  match e with
  | Strconv.ErrSyntax => errParse
  | Strconv.ErrRange => errRange
  end.

(** A dynamic type implementing [flag.Value]: its state, its [Set] and
    [String] methods and, when it has one, its [IsBoolFlag] method.  [Set]
    has a pointer receiver: it returns the new state with the error. *)
Record ValueType := {
  carrier : Type;
  vSet : string → carrier → carrier * option SetError;
  vString : carrier → string;
  vIsBoolFlag : option (carrier → bool)
}.

(** A [flag.Value]: a dynamic type and the state the pointer refers to. *)
Record Value := mkValue { vtype : ValueType; vstate : carrier vtype }.

Definition Value_Set (v : Value) (s : string) : Value * option SetError :=
  let '(c, e) := vSet (vtype v) s (vstate v) in (mkValue (vtype v) c, e).

Definition Value_String (v : Value) : string := vString (vtype v) (vstate v).

(** [intValue]: [Set] assigns the parsed number whether or not
    [strconv.ParseInt] reported an error. *)
Definition intValue : ValueType := {|
  carrier := Z;
  vSet := λ s _, let '(v, err) := Strconv.ParseInt s in (v, numError <$> err);
  vString := Strconv.Itoa;
  vIsBoolFlag := None
|}.

(** [boolValue]: [Set] assigns the result of [strconv.ParseBool] in both
    cases and turns its error into [errParse]. *)
Definition boolValue : ValueType := {|
  carrier := bool;
  vSet := λ s _, let '(v, err) := Strconv.ParseBool s in
                 (v, (λ _, errParse) <$> err);
  vString := Strconv.FormatBool;
  vIsBoolFlag := Some (λ _, true)
|}.

(** [stringValue]. *)
Definition stringValue : ValueType := {|
  carrier := string;
  vSet := λ s _, (s, None);
  vString := λ s, s;
  vIsBoolFlag := None
|}.

(** [type Flag struct]. *)
Record Flag := mkFlag {
  Name : string;
  Usage : string;
  Value_ : Value;
  DefValue : string
}.

(** The flag after [Set] was called on its value. *)
Definition with_Value (f : Flag) (v : Value) : Flag :=
  {| Name := Name f; Usage := Usage f; Value_ := v; DefValue := DefValue f |}.

(** [ErrHelp] and the errors [failf] builds in [parseOne]. *)
Inductive error :=
| ErrHelp
| errBadSyntax (s : string)
| errNotDefined (name : string)
| errInvalidBoolValue (value name : string) (e : SetError)
| errInvalidBoolFlag (name : string) (e : SetError)
| errNeedsArgument (name : string)
| errInvalidValue (value name : string) (e : SetError).

(** [type FlagSet struct].  [actual] holds pointers to flags of [formal]
    under the same keys, so it is the set of its keys. *)
Record FlagSet := mkFlagSet {
  parsed : bool;
  actual : gset string;
  formal : gmap string Flag;
  args : list string
}.

Definition set_args (f : FlagSet) (a : list string) : FlagSet :=
  {| parsed := parsed f; actual := actual f; formal := formal f; args := a |}.

(** [NewFlagSet] and [Var]; [Var] panics ([None]) on a name that begins
    with [-], contains [=] or is already defined. *)
Definition NewFlagSet : FlagSet :=
  {| parsed := false; actual := ∅; formal := ∅; args := [] |}.

Definition Var (f : FlagSet) (value : Value) (name usage : string) : option FlagSet :=
  if Strings.starts_with "-" name then None
  else if Strings.contains_byte "=" name then None
  else match formal f !! name with
       | Some _ => None
       | None =>
           Some {| parsed := parsed f; actual := actual f;
                   formal := <[name := mkFlag name usage value (Value_String value)]> (formal f);
                   args := args f |}
       end.

(** [VisitAll] and [Visit] call [fn] on the flags of [formal] and of
    [actual]; the result is the list of flags visited.  Go visits in
    lexicographical order of the names, [map_to_list] in an order of its
    own: the callers modelled here build a map from the visit, which does
    not depend on the order. *)
Definition VisitAll (f : FlagSet) : list Flag := (map_to_list (formal f)).*2.

Definition Visit (f : FlagSet) : list Flag :=
  omap (λ name, formal f !! name) (elements (actual f)).

(** [Args]. *)
Definition Args (f : FlagSet) : list string := args f.

(** The search for [=] in [parseOne], from index 1 of [name]: [findEq] is
    the loop from the current index on, [splitName] the whole of it;
    the result is [(name, hasValue, value)]. *)
Fixpoint findEq (s : string) : option (string * string) :=
  match s with
  | EmptyString => None
  | String c s' =>
      if Ascii.eqb c "=" then Some (EmptyString, s')
      else match findEq s' with
           | Some (a, b) => Some (String c a, b)
           | None => None
           end
  end.

Definition splitName (name : string) : string * bool * string :=
  match name with
  | EmptyString => (name, false, EmptyString)
  | String c rest =>
      match findEq rest with
      | Some (a, b) => (String c a, true, b)
      | None => (name, false, EmptyString)
      end
  end.

(** [isBoolFlag]-style test of [parseOne]:
    [fv, ok := flag.Value.(boolFlag); ok && fv.IsBoolFlag()]. *)
Definition is_boolFlag (v : Value) : bool :=
  match vIsBoolFlag (vtype v) with
  | Some m => m (vstate v)
  | None => false
  end.

(** [flag.Value.Set(value)] on the flag [name] of [f]: the flag's value
    changes in place, whatever [Set] returns. *)
Definition set_flag (f : FlagSet) (name : string) (flag : Flag) (value : string)
  : FlagSet * option SetError :=
  let '(v, err) := Value_Set (Value_ flag) value in
  ({| parsed := parsed f; actual := actual f;
      formal := <[name := with_Value flag v]> (formal f); args := args f |}, err).

(** [f.actual[name] = flag]. *)
Definition mark_actual (f : FlagSet) (name : string) : FlagSet :=
  {| parsed := parsed f; actual := {[name]} ∪ actual f;
     formal := formal f; args := args f |}.

(** [func (f *FlagSet) parseOne() (bool, error)]. *)
Definition parseOne (f : FlagSet) : bool * option error * FlagSet :=
  match args f with
  | [] => (false, None, f)
  | s :: rest =>
      match s with
      | String c0 (String c1 s2) =>
          if negb (Ascii.eqb c0 "-") then (false, None, f)
          else
            let minus2 := Ascii.eqb c1 "-" in
            if minus2 && bool_decide (s2 = EmptyString)
            then (false, None, set_args f rest)   (* "--" terminates the flags *)
            else
              let name := if minus2 then s2 else String c1 s2 in
              if bool_decide (name = EmptyString)
                 || Strings.starts_with "-" name || Strings.starts_with "=" name
              then (false, Some (errBadSyntax s), f)
              else
                let f := set_args f rest in
                let '(name, hasValue, value) := splitName name in
                match formal f !! name with
                | None =>
                    if bool_decide (name = "help") || bool_decide (name = "h")
                    then (false, Some ErrHelp, f)
                    else (false, Some (errNotDefined name), f)
                | Some flag =>
                    if is_boolFlag (Value_ flag) then
                      if hasValue then
                        match set_flag f name flag value with
                        | (f, Some e) => (false, Some (errInvalidBoolValue value name e), f)
                        | (f, None) => (true, None, mark_actual f name)
                        end
                      else
                        match set_flag f name flag "true" with
                        | (f, Some e) => (false, Some (errInvalidBoolFlag name e), f)
                        | (f, None) => (true, None, mark_actual f name)
                        end
                    else
                      match (if hasValue then Some (value, f)
                             else match args f with
                                  | v :: rest' => Some (v, set_args f rest')
                                  | [] => None
                                  end) with
                      | None => (false, Some (errNeedsArgument name), f)
                      | Some (value, f) =>
                          match set_flag f name flag value with
                          | (f, Some e) => (false, Some (errInvalidValue value name e), f)
                          | (f, None) => (true, None, mark_actual f name)
                          end
                      end
                end
      | _ => (false, None, f)   (* len(s) < 2 *)
      end
  end.

(** The loop of [FlagSet.Parse]; [fuel] bounds the number of calls of
    [parseOne], each of which consumes an argument when it reports [seen]. *)
Fixpoint parse_loop (fuel : nat) (f : FlagSet) : option error * FlagSet :=
  match fuel with
  | O => (None, f)
  | S fuel' =>
      match parseOne f with
      | (true, _, f') => parse_loop fuel' f'
      | (false, None, f') => (None, f')
      | (false, Some err, f') => (Some err, f')
      end
  end.

(** [func (f *FlagSet) Parse(arguments []string) error]. *)
Definition Parse (f : FlagSet) (arguments : list string) : option error * FlagSet :=
  parse_loop (S (length arguments))
    {| parsed := true; actual := actual f; formal := formal f; args := arguments |}.

End Flag.

(** ** Package envflag *)

Import Flag.

(** [type option struct]. *)
Record option_ := mkOption {
  set : FlagSet;
  args_ : list string;
  prefix : string
}.

(** [type Option func(o *option)] and its three constructors. *)
Definition Option := option_ → option_.

Definition FlagSet_ (s : FlagSet) : Option :=
  λ o, {| set := s; args_ := args_ o; prefix := prefix o |}.

Definition Args_ (arguments : list string) : Option :=
  λ o, {| set := set o; args_ := arguments; prefix := prefix o |}.

Definition Prefix (p : string) : Option :=
  λ o, {| set := set o; args_ := args_ o; prefix := p |}.

(** What [Parse] reads from the process: [flag.CommandLine], [os.Args[1:]]
    and the environment. *)
Record Process := mkProcess {
  CommandLine : FlagSet;
  os_Args : list string;
  environ : Environ
}.

(** What a call of [Parse] leaves: the error returned, the flag set [o.set]
    as the call left it, and the keys passed to [os.LookupEnv], in order. *)
Record Outcome := mkOutcome {
  err : option error;
  final : FlagSet;
  looked : list string
}.

(** [func isBoolFlag(v flag.Value) bool]. *)
Definition isBoolFlag (v : Value) : bool :=
  match vIsBoolFlag (vtype v) with
  | Some IsBoolFlag => IsBoolFlag (vstate v)
  | None => false
  end.

Section Parse.
Context `{UnicodeTables}.

(** The [switch strings.ToLower(v)] of [Parse]. *)
Definition normalize (v : string) : string :=
  let l := Strings.ToLower v in
  if bool_decide (l ∈ ["true"; "yes"; "y"; "1"]) then "true"
  else if bool_decide (l ∈ ["false"; "no"; "n"; "0"]) then "false"
  else v.

(** One iteration of [for name, f := range unset]: the state is the slice
    [args] and the keys looked up so far. *)
Definition range_body (pfx : string) (E : Environ)
    (st : list string * list string) (entry : string * Flag)
  : list string * list string :=
  let '(args, keys) := st in
  let '(name, f) := entry in
  let keys := keys ++ [envKey (pfx +:+ name)] in
  match env E (pfx +:+ name) with
  | Some v =>
      let v := if isBoolFlag (Value_ f) then normalize v else v in
      (args ++ ["--" +:+ name +:+ "=" +:+ v], keys)
  | None => (args, keys)
  end.

(** The map [unset] after the [VisitAll] and the [Visit]. *)
Definition unset_of (s : FlagSet) : gmap string Flag :=
  let unset := foldl (λ m f, <[Name f := f]> m) (∅ : gmap string Flag) (VisitAll s) in
  foldl (λ m f, delete (Name f) m) unset (Visit s).

(** [Parse] from the first call of [o.set.Parse] on.  Go's [range] over a
    map visits the entries in an order it chooses: [range] is that order. *)
Definition parse (range : gmap string Flag → list (string * Flag))
    (E : Environ) (o : option_) : Outcome :=
  match Flag.Parse (set o) (args_ o) with
  | (Some e, s) => {| err := Some e; final := s; looked := [] |}
  | (None, s) =>
      let unset := unset_of s in
      let '(args, keys) := foldl (range_body (prefix o) E) ([], []) (range unset) in
      if bool_decide (length args = 0) then
        {| err := None; final := s; looked := keys |}
      else
        let args := if bool_decide (0 < length (Args s))
                    then (args ++ ["--"]) ++ Args s else args in
        let '(e, s) := Flag.Parse s args in
        {| err := e; final := s; looked := keys |}
  end.

(** The [option] that [Parse] builds: the defaults, then every [Option]
    applied in order. *)
Definition configure (P : Process) (options : list Option) : option_ :=
  foldl (λ o opt, opt o)
    {| set := CommandLine P; args_ := os_Args P; prefix := "" |} options.

(** [func Parse(options ...Option) error]. *)
Definition Parse (range : gmap string Flag → list (string * Flag))
    (P : Process) (options : list Option) : Outcome :=
  parse range (environ P) (configure P options).

End Parse.

(** The first pass of [Parse]: the error and the flag set it leaves. *)
Definition first_pass (o : option_) : option error * FlagSet :=
  Flag.Parse (set o) (args_ o).

(** An order [range] may choose: any enumeration of the map's entries. *)
Definition RangeOrder (range : gmap string Flag → list (string * Flag)) : Prop :=
  ∀ m, range m ≡ₚ map_to_list m.

(** * Definitions for the statements *)

(** ** The synthesized arguments and what a pass does with them *)

(** The argument [Parse] synthesizes for a flag and an environment value. *)
Definition mkArg (name v : string) : string := "--" +:+ name +:+ "=" +:+ v.

(** [parseOne] saw the flag [n]: its [Set] accepted [v]. *)
Definition step_ok (f : FlagSet) (n v : string) (rest : list string) (f' : FlagSet) : Prop :=
  ∃ flag val,
    formal f !! n = Some flag ∧ Value_Set (Value_ flag) v = (val, None) ∧
    f' = {| parsed := parsed f; actual := {[n]} ∪ actual f;
            formal := <[n := with_Value flag val]> (formal f); args := rest |}.

(** [parseOne] failed: no flag was marked as set, and at most the value of
    [n] changed, to what its [Set] left. *)
Definition step_err (f : FlagSet) (n v : string) (f' : FlagSet) : Prop :=
  actual f' = actual f ∧
  (formal f' = formal f
   ∨ ∃ flag, formal f !! n = Some flag ∧
       formal f' = <[n := with_Value flag (Value_Set (Value_ flag) v).1]> (formal f)).

(** The synthesized list for the entries [(name, value)] and the positional
    arguments [pos], as [Parse] builds it. *)
Definition synth (entries : list (string * string)) : list string :=
  (λ e, mkArg e.1 e.2) <$> entries.

Definition tail_of (pos : list string) : list string :=
  if bool_decide (0 < length pos) then "--" :: pos else [].

(** What a pass over [synth entries ++ tail_of pos] leaves of a flag [n]:
    its old value, or what [Set] made of it with the value of its entry. *)
Definition touched (entries : list (string * string)) (f f' : FlagSet) (n : string) : Prop :=
  formal f' !! n = formal f !! n
  ∨ ∃ v flag, (n, v) ∈ entries ∧ formal f !! n = Some flag ∧
      formal f' !! n = Some (with_Value flag (Value_Set (Value_ flag) v).1).

(** On success every entry was applied, and accepted by [Set]. *)
Definition all_applied (entries : list (string * string)) (f f' : FlagSet) : Prop :=
  ∀ n v, (n, v) ∈ entries →
    ∃ flag val, formal f !! n = Some flag ∧ Value_Set (Value_ flag) v = (val, None) ∧
      formal f' !! n = Some (with_Value flag val).

(** ** Any pass of [FlagSet.Parse] *)

(** What one call of [parseOne] does to the flag set: it changes no flag, or
    it calls [Set] on one registered flag, which it marks as set when [Set]
    accepted the value and leaves unmarked, with an error, otherwise. *)
Definition one_step (f f' : FlagSet) (seen : bool) (e : option error) : Prop :=
  (length (args f') ≤ length (args f))%nat ∧
  (seen = true → (length (args f') < length (args f))%nat ∧ e = None) ∧
  ((formal f' = formal f ∧ actual f' = actual f ∧ seen = false)
   ∨ ∃ n flag val,
       formal f !! n = Some flag ∧
       formal f' = <[n := with_Value flag val]> (formal f) ∧
       ((seen = true ∧ actual f' = {[n]} ∪ actual f)
        ∨ (seen = false ∧ e ≠ None ∧ actual f' = actual f))).

(** What a whole pass does: the registered names stay the same and a flag
    changes in its value only; flags marked as set stay marked; when the
    pass succeeds, every flag it changed is marked as set. *)
Definition pass_rel (f f' : FlagSet) (e : option error) : Prop :=
  (∀ n, match formal f !! n with
        | Some flag => ∃ val, formal f' !! n = Some (with_Value flag val)
        | None => formal f' !! n = None
        end) ∧
  actual f ⊆ actual f' ∧
  (e = None → ∀ n, n ∉ actual f' → formal f' !! n = formal f !! n).

(** The invariant of a flag set built with [NewFlagSet] and [Var]: a flag is
    registered under its own name, and no name contains [=]. *)
Definition wf (s : FlagSet) : Prop :=
  ∀ k flag, formal s !! k = Some flag →
    Name flag = k ∧ Strings.contains_byte "=" k = false.

(** ** The loop over [unset] *)

Section Entries.
Context `{UnicodeTables}.

(** The [(name, value)] entry the loop body synthesizes for an entry of
    [unset], if the environment has its key. *)
Definition env_entry (pfx : string) (E : Environ) (entry : string * Flag)
  : option (string * string) :=
  (λ v, (entry.1, if isBoolFlag (Value_ entry.2) then normalize v else v))
    <$> env E (pfx +:+ entry.1).

Definition env_entries (pfx : string) (E : Environ) (l : list (string * Flag))
  : list (string * string) :=
  omap (env_entry pfx E) l.

Definition env_keys (pfx : string) (l : list (string * Flag)) : list string :=
  (λ entry, envKey (pfx +:+ entry.1)) <$> l.

(** The source that resolves a flag after a first pass that left [s1]. *)
Inductive Source := FromArguments | FromEnvironment | FromDefault.

Definition source_of (s1 : FlagSet) (pfx : string) (E : Environ) (name : string) : Source :=
  if decide (name ∈ actual s1) then FromArguments
  else match env E (pfx +:+ name) with
       | Some _ => FromEnvironment
       | None => FromDefault
       end.

End Entries.

(** ** The specification's wording of the two string rules *)

(** The key as the specification gives it: [UPPER(prefix + flagName)] with
    every [.] and every [-] replaced by [_], in one pass over the bytes. *)
Definition spec_key `{UnicodeTables} (pfx name : string) : string :=
  Strings.map_bytes (λ c, if Ascii.eqb c "." || Ascii.eqb c "-" then "_"%char else c)
    (Strings.ToUpper (pfx +:+ name)).

(** Equality of two strings up to the case of ASCII letters. *)
Fixpoint fold_eq (s t : string) : bool :=
  match s, t with
  | EmptyString, EmptyString => true
  | String a s', String b t' =>
      Ascii.eqb (Strings.lower_byte a) (Strings.lower_byte b) && fold_eq s' t'
  | _, _ => false
  end.

Definition truthy : list string := ["true"; "yes"; "y"; "1"].
Definition falsy : list string := ["false"; "no"; "n"; "0"].

(** The normalization as the specification gives it: case-insensitively, a
    truthy word becomes [true], a falsy word [false], anything else stays. *)
Definition spec_normalize (v : string) : string :=
  if existsb (fold_eq v) truthy then "true"
  else if existsb (fold_eq v) falsy then "false"
  else v.

(** * The test suite's inputs *)

Module Tests.

(** An instance of the case tables for the examples, whose strings are all
    ASCII: the tables are never consulted on them. *)
#[export] Instance ascii_only : UnicodeTables :=
  {| mapToUpper := λ s, s; mapToLower := λ s, s |}.

(** [FlagSet.Int], [FlagSet.Bool] and [FlagSet.String] with an empty usage
    string; a name that [Var] refuses leaves the flag set as it is. *)
Definition Int (f : FlagSet) (name : string) (value : Z) : FlagSet :=
  default f (Var f (mkValue intValue value) name "").

Definition Bool (f : FlagSet) (name : string) (value : bool) : FlagSet :=
  default f (Var f (mkValue boolValue value) name "").

Definition String_ (f : FlagSet) (name : string) (value : string) : FlagSet :=
  default f (Var f (mkValue stringValue value) name "").

(** The flag registered under [name], and whether there is one. *)
Definition registered (s : FlagSet) (name : string) : Flag :=
  default (mkFlag name "" (mkValue stringValue "") "") (formal s !! name).

Definition is_registered (s : FlagSet) (name : string) : bool :=
  bool_decide (is_Some (formal s !! name)).

(** [f.Value.String()] of the flag registered under [name]. *)
Definition value_of (s : FlagSet) (name : string) : option string :=
  Value_String <$> (Value_ <$> formal s !! name).

(** The process of a test: [flag.CommandLine] and [os.Args] are replaced by
    the options [FlagSet] and [Args]; [setEnv] fills the environment. *)
Definition proc (e : list (string * string)) : Process :=
  {| CommandLine := NewFlagSet; os_Args := []; environ := list_to_map e |}.

(** Test [simple]. *)
Definition simple_options : list Option := [FlagSet_ (Int NewFlagSet "envflag_simple" 0)].

Definition simple_proc : Process := proc [("ENVFLAG_SIMPLE", "42")].

Definition simple_flag : Flag :=
  registered (set (configure simple_proc simple_options)) "envflag_simple".

(** Test [prefix], and a richer environment with the same [PREFIX_ENVFLAG_PREFIX]. *)
Definition prefix_options : list Option :=
  [FlagSet_ (Int NewFlagSet "envflag_prefix" 0); Prefix "PREFIX_"].

Definition prefix_proc : Process := proc [("PREFIX_ENVFLAG_PREFIX", "42")].

Definition prefix_environ : Environ :=
  list_to_map [("PREFIX_ENVFLAG_PREFIX", "42"); ("ENVFLAG_PREFIX", "7"); ("HOME", "/")].

(** Test [args_override_env]. *)
Definition override_options : list Option :=
  [FlagSet_ (Int NewFlagSet "envflag_args_override_env" 0);
   Args_ ["--envflag_args_override_env=42"]].

Definition override_proc : Process := proc [("ENVFLAG_ARGS_OVERRIDE_ENV", "11")].

(** Test [keep_args]. *)
Definition keep_args_options : list Option :=
  [FlagSet_ (Int NewFlagSet "envflag_keep_args" 0); Args_ ["keep"; "args"]].

Definition keep_args_proc : Process := proc [("ENVFLAG_KEEP_ARGS", "42")].

(** Test [invalid_arg]. *)
Definition invalid_arg_options : list Option :=
  [FlagSet_ (Int NewFlagSet "envflag_invalid_arg" (-1));
   Args_ ["--envflag_invalid_arg=invalid_int"]].

Definition invalid_arg_proc : Process := proc [("ENVFLAG_INVALID_ARG", "42")].

(** Test [invalid_env]. *)
Definition invalid_env_options : list Option :=
  [FlagSet_ (Int NewFlagSet "envflag_invalid_env" (-1))].

Definition invalid_env_proc : Process := proc [("ENVFLAG_INVALID_ENV", "invalid_int")].

Definition invalid_env_flag : Flag :=
  registered (first_pass (configure invalid_env_proc invalid_env_options)).2
    "envflag_invalid_env".

(** Test [invalid_bool], with the value of [BOOL] left open. *)
Definition bool_options : list Option := [FlagSet_ (Bool NewFlagSet "bool" false)].

Definition bool_proc (v : string) : Process := proc [("BOOL", v)].

Definition bool_flag : Flag := mkFlag "bool" "" (mkValue boolValue false) "false".

(** A flag that the argument list sets to its default value, with another
    value in the environment. *)
Definition same_as_default_options : list Option :=
  [FlagSet_ (Int NewFlagSet "n" 7); Args_ ["--n=7"]].

Definition same_as_default_proc : Process := proc [("N", "5")].

(** Test [invalid_env] with a positional argument. *)
Definition invalid_env_pos_options : list Option :=
  [FlagSet_ (Int NewFlagSet "envflag_invalid_env" (-1)); Args_ ["x"]].

(** Two string flags whose names have the same environment key. *)
Definition dotted_set : FlagSet := String_ (String_ NewFlagSet "a.b" "") "a-b" "".

End Tests.

(** * Definitions for the further properties *)

(** ** What decides the second pass *)

(** A name that [parseOne] can read back from [--name=value]. *)
Definition valid_name (name : string) : bool :=
  negb (bool_decide (name = EmptyString)) && negb (Strings.starts_with "-" name).

(** The error [parseOne] returns for the argument synthesized from the entry
    [(n, v)], if it returns one: the flag's own value decides. *)
Definition entry_error (f : FlagSet) (n v : string) : option error :=
  if negb (valid_name n) then Some (errBadSyntax (mkArg n v))
  else match formal f !! n with
       | None =>
           Some (if bool_decide (n = "help") || bool_decide (n = "h")
                 then ErrHelp else errNotDefined n)
       | Some flag =>
           match (Value_Set (Value_ flag) v).2 with
           | Some e =>
               Some (if isBoolFlag (Value_ flag) then errInvalidBoolValue v n e
                     else errInvalidValue v n e)
           | None => None
           end
       end.

(** What a pass that stopped at the entry [(n, v)] leaves of the flag [n]:
    what its [Set] left when [parseOne] could read the name back from the
    argument, and the flag as it was when it could not. *)
Definition stopped_at (f f' : FlagSet) (n v : string) : Prop :=
  match formal f !! n with
  | Some flag =>
      formal f' !! n
      = Some (if valid_name n then with_Value flag (Value_Set (Value_ flag) v).1 else flag)
  | None => formal f' !! n = None
  end.

(** What a successful [Parse] leaves of the flag registered as [n], after a
    first pass that left [s1]: the first-pass flag when the argument list
    set it or the environment lacks its key, and otherwise the flag with
    what its [Set] made of the (normalized) environment value. *)
Definition resolved `{UnicodeTables} (s1 : FlagSet) (pfx : string) (E : Environ)
    (n : string) : option Flag :=
  match formal s1 !! n with
  | None => None
  | Some flag =>
      if decide (n ∈ actual s1) then Some flag
      else match env E (pfx +:+ n) with
           | None => Some flag
           | Some v =>
               Some (with_Value flag
                       (Value_Set (Value_ flag)
                          (if isBoolFlag (Value_ flag) then normalize v else v)).1)
           end
  end.

(** ** Keys, options and the test helpers *)

(** Every byte of [s] satisfies [p]. *)
Fixpoint all_bytes (p : ascii → bool) (s : string) : bool :=
  match s with
  | EmptyString => true
  | String c s' => p c && all_bytes p s'
  end.

(** A byte that can occur in a key computed from an ASCII name: no
    lower-case letter, no [.] and no [-]. *)
Definition key_byte (c : ascii) : bool :=
  negb (Strings.is_lower_byte c) && negb (Ascii.eqb c ".") && negb (Ascii.eqb c "-").

(** What [env] does to one byte of an ASCII name. *)
Definition key_of_byte (c : ascii) : ascii :=
  let c := Strings.upper_byte c in
  let c := if Ascii.eqb c "." then "_"%char else c in
  if Ascii.eqb c "-" then "_"%char else c.

(** The three ways to build an [Option], as data. *)
Inductive OptionSpec :=
| WithFlagSet (s : FlagSet)
| WithArgs (arguments : list string)
| WithPrefix (p : string).

Definition to_Option (x : OptionSpec) : Option :=
  match x with
  | WithFlagSet s => FlagSet_ s
  | WithArgs arguments => Args_ arguments
  | WithPrefix p => Prefix p
  end.

Definition flag_sets (l : list OptionSpec) : list FlagSet :=
  omap (λ x, match x with WithFlagSet s => Some s | _ => None end) l.

Definition argument_lists (l : list OptionSpec) : list (list string) :=
  omap (λ x, match x with WithArgs a => Some a | _ => None end) l.

Definition prefixes (l : list OptionSpec) : list string :=
  omap (λ x, match x with WithPrefix p => Some p | _ => None end) l.

(** *** Package os, on Unix *)

Module Os.

(** The checks of [syscall.Setenv]: the key is not empty and has no [=] and
    no NUL byte, the value has no NUL byte. *)
Definition valid_key (key : string) : bool :=
  negb (bool_decide (key = EmptyString))
  && negb (Strings.contains_byte "=" key)
  && negb (Strings.contains_byte "000" key).

Definition valid_value (value : string) : bool :=
  negb (Strings.contains_byte "000" value).

(** [os.Setenv]: the new environment, and whether an error is returned. *)
Definition Setenv (key value : string) (E : Environ) : Environ * bool :=
  if valid_key key && valid_value value then (<[key := value]> E, false) else (E, true).

(** [os.Clearenv]. *)
Definition Clearenv (E : Environ) : Environ := ∅.

(** [os.Environ]: the strings [key=value], in the order [order] of the
    environment block. *)
Definition Environ_ (order : Environ → list (string * string)) (E : Environ)
  : list string :=
  (λ kv, kv.1 +:+ "=" +:+ kv.2) <$> order E.

End Os.

(** *** envflag_test.go *)

(** [strings.SplitN(s, "=", 2)]. *)
Definition SplitN_eq (s : string) : list string :=
  match findEq s with
  | Some (a, b) => [a; b]
  | None => [s]
  end.

(** [func setEnv(env []string)]; [None] is the panic of [kv[1]] on an entry
    without [=].  The error of [os.Setenv] is dropped, as in the source. *)
Fixpoint setEnv (env : list string) (E : Environ) : option Environ :=
  match env with
  | [] => Some E
  | s :: rest =>
      let kv := SplitN_eq s in
      match kv !! 0%nat, kv !! 1%nat with
      | Some k, Some v => setEnv rest (Os.Setenv k v E).1
      | _, _ => None
      end
  end.

(** [func resetEnv() func()]: the environment it leaves, and the function it
    returns, which acts on the environment of the time of its call. *)
Definition resetEnv (order : Environ → list (string * string)) (E : Environ)
  : Environ * (Environ → option Environ) :=
  let env := Os.Environ_ order E in
  (Os.Clearenv E, λ E', setEnv env (Os.Clearenv E')).

(** ** More inputs *)

Module Inputs.
Import Tests.

(** Test [simple] without its environment variable. *)
Definition bare_proc : Process := proc [].

(** The process of two string flags [a.b] and [a-b] with [A_B] set. *)
Definition dotted_options : list Option := [FlagSet_ dotted_set].

Definition dotted_proc : Process := proc [("A_B", "v")].

(** An iteration order other than that of [map_to_list]. *)
Definition reversed (m : gmap string Flag) : list (string * Flag) :=
  reverse (map_to_list m).

(** The environment of test [prefix] with one more variable, whose name has
    a [.]. *)
Definition dotted_environ : Environ := <["envflag.prefix" := "7"]> (environ prefix_proc).

(** A small environment for [resetEnv]. *)
Definition home_environ : Environ := {[ "HOME" := "/root" ]}.

End Inputs.

(** * Properties *)

(** ** Strings *)

Lemma findEq_app (rest v : string) :
  ∃ a b, findEq (rest +:+ "=" +:+ v) = Some (a, b)
         ∧ (Strings.contains_byte "=" rest = false → a = rest ∧ b = v).
Proof.
  induction rest as [|c rest IH]; simpl.
  - exists EmptyString, v. split; [reflexivity | auto].
  - destruct IH as (a & b & -> & IH).
    destruct (Ascii.eqb c "=") eqn:Hc; simpl.
    + exists EmptyString, (rest +:+ "=" +:+ v). split; [reflexivity | discriminate].
    + exists (String c a), b. split; [reflexivity |].
      intros Hn. destruct (IH Hn) as [-> ->]. auto.
Qed.

Lemma splitName_app (c : ascii) (rest v : string) :
  ∃ n' v', splitName (String c rest +:+ "=" +:+ v) = (n', true, v')
           ∧ (Strings.contains_byte "=" (String c rest) = false
              → n' = String c rest ∧ v' = v).
Proof.
  destruct (findEq_app rest v) as (a & b & Hf & Hab).
  exists (String c a), b. split.
  - simpl. simpl in Hf. rewrite Hf. reflexivity.
  - simpl. intros Hn. apply orb_false_iff in Hn as [_ Hn].
    destruct (Hab Hn) as [-> ->]. auto.
Qed.

(** ** One synthesized argument through [parseOne] *)

Lemma set_flag_spec (f : FlagSet) (n : string) (flag : Flag) (v : string) :
  set_flag f n flag v =
    ({| parsed := parsed f; actual := actual f;
        formal := <[n := with_Value flag (Value_Set (Value_ flag) v).1]> (formal f);
        args := args f |}, (Value_Set (Value_ flag) v).2).
Proof. unfold set_flag. destruct (Value_Set (Value_ flag) v); reflexivity. Qed.

Lemma parseOne_synth (f : FlagSet) (name v : string) (rest : list string) :
  args f = mkArg name v :: rest →
  ∃ n' v',
    (Strings.contains_byte "=" name = false → n' = name ∧ v' = v) ∧
    ((∃ f', parseOne f = (true, None, f') ∧ step_ok f n' v' rest f')
     ∨ (∃ e f', parseOne f = (false, Some e, f') ∧ step_err f n' v' f')).
Proof.
  intros Hargs. unfold parseOne. rewrite Hargs. unfold mkArg. simpl.
  destruct name as [|c name].
  { exists EmptyString, v. split; [auto|]. right. simpl.
    eexists _, f. split; [reflexivity|]. split; auto. }
  simpl.
  destruct (Ascii.eqb c "-") eqn:Hminus; simpl.
  { exists (String c name), v. split; [auto|]. right.
    eexists _, f. split; [reflexivity|]. split; auto. }
  destruct (Ascii.eqb c "=") eqn:Heq; simpl.
  { exists (String c name), v. split; [auto|]. right.
    eexists _, f. split; [reflexivity|]. split; auto. }
  destruct (splitName_app c name v) as (n' & v' & Hsplit & Hn').
  exists n', v'. split.
  { intros Hn. apply Hn'. simpl. rewrite Heq. exact Hn. }
  simpl in Hsplit.
  destruct (findEq (name +:+ "=" +:+ v)) as [[a b]|]; [|discriminate].
  injection Hsplit as Ha Hb. rewrite Ha, Hb. clear a b Ha Hb Hn'.
  destruct (formal f !! n') as [flag|] eqn:Hflag.
  2:{ right. destruct (bool_decide (n' = "help") || bool_decide (n' = "h"));
      eexists _, _; (split; [reflexivity|]); split; auto. }
  assert (Hset : ∀ g, formal g = formal f → actual g = actual f → args g = rest →
            parsed g = parsed f →
            (∃ f', (set_flag g n' flag v').1 = f' ∧ (set_flag g n' flag v').2 = None
                   ∧ step_ok f n' v' rest (mark_actual f' n'))
            ∨ (∃ e, (set_flag g n' flag v').2 = Some e
                    ∧ step_err f n' v' (set_flag g n' flag v').1)).
  { intros g Hg1 Hg2 Hg3 Hg4. rewrite set_flag_spec. simpl.
    destruct (Value_Set (Value_ flag) v') as [val [e|]] eqn:Hv; simpl.
    - right. exists e. split; [reflexivity|]. split; [exact Hg2|].
      right. exists flag. rewrite Hv, Hg1. auto.
    - left. eexists. split; [reflexivity|]. split; [reflexivity|].
      exists flag, val. split; [exact Hflag|]. split; [exact Hv|].
      unfold mark_actual. simpl. rewrite Hg1, Hg2, Hg3, Hg4. reflexivity. }
  specialize (Hset (set_args f rest) eq_refl eq_refl eq_refl eq_refl).
  destruct (is_boolFlag (Value_ flag));
    destruct Hset as [(f' & Hf' & He & Hok) | (e & He & Herr)];
    destruct (set_flag (set_args f rest) n' flag v') as [g oe]; simpl in *; subst.
  - left. eexists. split; [reflexivity | exact Hok].
  - right. eexists _, _. split; [reflexivity | exact Herr].
  - left. eexists. split; [reflexivity | exact Hok].
  - right. eexists _, _. split; [reflexivity | exact Herr].
Qed.

(** ** The second pass: [FlagSet.Parse] over synthesized arguments *)

Lemma parse_loop_tail (fuel : nat) (f : FlagSet) (pos : list string) :
  args f = tail_of pos →
  ∃ f', parse_loop (S fuel) f = (None, f') ∧ formal f' = formal f
        ∧ actual f' = actual f ∧ args f' = pos.
Proof.
  unfold tail_of. intros Ha. simpl. unfold parseOne. rewrite Ha.
  destruct pos as [|p pos]; simpl.
  - exists f. rewrite Ha. auto.
  - exists (set_args f (p :: pos)). auto.
Qed.

Lemma parse_loop_synth (entries : list (string * string)) :
  ∀ (f : FlagSet) (fuel : nat) (pos : list string) (e : option error) (f' : FlagSet),
    NoDup entries.*1 →
    Forall (λ en, Strings.contains_byte "=" en.1 = false) entries →
    args f = synth entries ++ tail_of pos →
    length entries < fuel →
    parse_loop fuel f = (e, f') →
    (∀ n, touched entries f f' n) ∧
    (e = None → args f' = pos ∧ all_applied entries f f'
                ∧ actual f' = list_to_set entries.*1 ∪ actual f).
Proof.
  induction entries as [|[n v] es IH]; intros f fuel pos e f' Hnd Hwf Hargs Hfuel Hrun.
  - destruct fuel as [|fuel]; [lia|].
    destruct (parse_loop_tail fuel f pos Hargs) as (g & Hg & Hform & Hact & Hpos).
    rewrite Hg in Hrun. injection Hrun as <- <-. split.
    + intros m. left. by rewrite Hform.
    + intros _. split; [exact Hpos|]. split.
      * intros m w Hin. by apply elem_of_nil in Hin.
      * rewrite Hact. simpl. set_solver.
  - destruct fuel as [|fuel]; [simpl in Hfuel; lia|].
    simpl in Hargs, Hfuel.
    apply NoDup_cons in Hnd as [Hn Hnd].
    apply Forall_cons in Hwf as [Hname Hwf]. simpl in Hname.
    destruct (parseOne_synth f n v _ Hargs) as (n' & v' & Heq & Hstep).
    destruct (Heq Hname) as [-> ->]. clear Heq.
    simpl in Hrun.
    destruct Hstep as [(f1 & Hone & flag & val & Hflag & Hset & Hf1)
                      | (e1 & f1 & Hone & Hact & Hform)];
      rewrite Hone in Hrun.
    + (* the flag was set: the loop goes on from [f1] *)
      assert (Hargs1 : args f1 = synth es ++ tail_of pos) by (by subst f1).
      assert (Hform1 : formal f1 = <[n := with_Value flag val]> (formal f))
        by (by subst f1).
      assert (Hact1 : actual f1 = {[n]} ∪ actual f) by (by subst f1).
      destruct (IH f1 fuel pos e f' Hnd Hwf Hargs1 ltac:(lia) Hrun) as [Htouch Hok].
      assert (Hn' : formal f' !! n = Some (with_Value flag val)).
      { destruct (Htouch n) as [-> | (w & fl & Hin & _)].
        - rewrite Hform1. apply lookup_insert_eq.
        - exfalso. apply Hn. apply list_elem_of_fmap. by exists (n, w). }
      split.
      * intros m. destruct (decide (m = n)) as [-> | Hne].
        -- right. exists v, flag. split; [apply list_elem_of_here|].
           split; [exact Hflag|]. by rewrite Hset.
        -- destruct (Htouch m) as [Hm | (w & fl & Hin & Hfl & Hm)].
           ++ left. rewrite Hm, Hform1. by apply lookup_insert_ne.
           ++ right. exists w, fl. split; [by apply list_elem_of_further|].
              split; [|exact Hm]. rewrite <- Hfl, Hform1.
              symmetry. by apply lookup_insert_ne.
      * intros He. destruct (Hok He) as (Hpos & Hall & Hact'). split; [exact Hpos|].
        split.
        -- intros m w Hin. apply elem_of_cons in Hin as [Hhd | Hin].
           ++ injection Hhd as -> ->. by exists flag, val.
           ++ destruct (Hall m w Hin) as (fl & vl & Hfl & Hvl & Hm).
              exists fl, vl. split; [|by split].
              rewrite <- Hfl, Hform1. symmetry. apply lookup_insert_ne.
              intros ->. apply Hn. apply list_elem_of_fmap. by exists (m, w).
        -- rewrite Hact', Hact1. simpl. set_solver.
    + (* the pass stops with an error *)
      injection Hrun as <- <-. split; [|discriminate].
      intros m. destruct Hform as [Hform | (fl & Hfl & Hform)].
      * left. by rewrite Hform.
      * destruct (decide (m = n)) as [-> | Hne].
        -- right. exists v, fl. split; [apply list_elem_of_here|].
           split; [exact Hfl|]. rewrite Hform. apply lookup_insert_eq.
        -- left. rewrite Hform. by apply lookup_insert_ne.
Qed.

(** ** Any pass of [FlagSet.Parse] *)

Lemma parseOne_one_step (f f' : FlagSet) (seen : bool) (e : option error) :
  parseOne f = (seen, e, f') → one_step f f' seen e.
Proof.
  unfold parseOne, one_step. intros Hp.
  repeat case_match; simplify_eq; simpl in *;
    repeat match goal with
    | H : set_flag _ _ _ _ = _ |- _ => rewrite set_flag_spec in H; simplify_eq; simpl in *
    | H : args _ = _ |- _ => rewrite H in *; simpl in *
    end;
    (split; [simpl; lia|]); (split; [intros; first [discriminate | split; [simpl; lia | reflexivity]]|]);
    first [ left; done
          | right; eexists _, _, _; split; [eassumption|]; split; [reflexivity|];
            first [ left; done | right; done ] ].
Qed.

Lemma with_Value_id (flag : Flag) : with_Value flag (Value_ flag) = flag.
Proof. by destruct flag. Qed.

Lemma with_Value_twice (flag : Flag) (v w : Value) :
  with_Value (with_Value flag v) w = with_Value flag w.
Proof. reflexivity. Qed.

Lemma pass_rel_refl (f : FlagSet) (e : option error) : pass_rel f f e.
Proof.
  split; [|split; done].
  intros n. destruct (formal f !! n) as [flag|]; [|done].
  exists (Value_ flag). by rewrite with_Value_id.
Qed.

Lemma pass_rel_trans (f f1 f' : FlagSet) (e : option error) :
  pass_rel f f1 None → pass_rel f1 f' e → pass_rel f f' e.
Proof.
  intros (Hdom1 & Hact1 & Hkeep1) (Hdom2 & Hact2 & Hkeep2). split; [|split].
  - intros n. specialize (Hdom1 n). specialize (Hdom2 n).
    destruct (formal f !! n) as [flag|].
    + destruct Hdom1 as [val Hval]. rewrite Hval in Hdom2.
      destruct Hdom2 as [val' Hval']. by exists val'.
    + by rewrite Hdom1 in Hdom2.
  - by transitivity (actual f1).
  - intros He n Hn. rewrite (Hkeep2 He n Hn). apply Hkeep1; [done|].
    intros Hin. apply Hn. by apply Hact2.
Qed.

Lemma one_step_rel (f f' : FlagSet) (seen : bool) (e : option error) :
  one_step f f' seen e → pass_rel f f' e.
Proof.
  intros (_ & _ & [(Hform & Hact & _) | (n & flag & val & Hflag & Hform & Hact)]).
  - split; [|split].
    + intros m. rewrite Hform. destruct (formal f !! m) as [fl|]; [|done].
      exists (Value_ fl). by rewrite with_Value_id.
    + by rewrite Hact.
    + intros _ m _. by rewrite Hform.
  - split; [|split].
    + intros m. rewrite Hform. destruct (decide (n = m)) as [<- | Hne].
      * rewrite Hflag, lookup_insert_eq. by exists val.
      * rewrite lookup_insert_ne by done.
        destruct (formal f !! m) as [fl|]; [|done].
        exists (Value_ fl). by rewrite with_Value_id.
    + destruct Hact as [[_ ->] | (_ & _ & ->)]; set_solver.
    + intros He m Hm. rewrite Hform.
      destruct Hact as [[_ Hact] | (_ & Hne & _)]; [|done].
      apply lookup_insert_ne. intros ->. apply Hm. rewrite Hact. set_solver.
Qed.

Lemma parse_loop_rel (fuel : nat) :
  ∀ (f f' : FlagSet) (e : option error),
    parse_loop fuel f = (e, f') → pass_rel f f' e.
Proof.
  induction fuel as [|fuel IH]; intros f f' e Hrun; simpl in Hrun.
  - injection Hrun as <- <-. apply pass_rel_refl.
  - destruct (parseOne f) as [[seen e1] f1] eqn:Hone.
    apply parseOne_one_step in Hone. pose proof (one_step_rel _ _ _ _ Hone) as Hrel.
    destruct seen.
    + destruct Hone as (_ & Hseen & _). destruct (Hseen eq_refl) as [_ ->].
      eapply pass_rel_trans; [exact Hrel | by apply IH].
    + destruct e1; injection Hrun as <- <-; exact Hrel.
Qed.

(** The fuel [FlagSet.Parse] gives its loop is enough: the loop ends because
    [parseOne] reports that it saw no flag, never because the fuel ran out. *)
Lemma parse_loop_fuel (n : nat) :
  ∀ (m : nat) (f : FlagSet),
    (length (args f) < n)%nat → (length (args f) < m)%nat →
    parse_loop n f = parse_loop m f.
Proof.
  induction n as [|n IH]; intros m f Hn Hm; [lia|].
  destruct m as [|m]; [lia|]. simpl.
  destruct (parseOne f) as [[seen e1] f1] eqn:Hone.
  apply parseOne_one_step in Hone as (_ & Hseen & _).
  destruct seen; [|done].
  destruct (Hseen eq_refl) as [Hlt _]. apply IH; lia.
Qed.

(** [FlagSet.Parse] does not depend on the fuel of its loop, once there is
    more of it than there are arguments. *)
Lemma Parse_fuel (f : FlagSet) (arguments : list string) (n : nat) :
  (length arguments < n)%nat →
  parse_loop n {| parsed := true; actual := actual f; formal := formal f;
                  args := arguments |}
  = Flag.Parse f arguments.
Proof. intros Hn. unfold Flag.Parse. apply parse_loop_fuel; simpl; lia. Qed.

Lemma NewFlagSet_wf : wf NewFlagSet.
Proof. intros k flag Hk. simpl in Hk. by rewrite lookup_empty in Hk. Qed.

Lemma Var_wf (f f' : FlagSet) (value : Value) (name usage : string) :
  wf f → Var f value name usage = Some f' → wf f'.
Proof.
  unfold Var. intros Hwf Hvar.
  destruct (Strings.starts_with "-" name); [done|].
  destruct (Strings.contains_byte "=" name) eqn:Heq; [done|].
  destruct (formal f !! name); [done|]. injection Hvar as <-.
  intros k flag. simpl. destruct (decide (name = k)) as [<- | Hne].
  - rewrite lookup_insert_eq. intros [= <-]. done.
  - rewrite lookup_insert_ne by done. apply Hwf.
Qed.

Lemma pass_rel_wf (f f' : FlagSet) (e : option error) :
  wf f → pass_rel f f' e → wf f'.
Proof.
  intros Hwf (Hdom & _ & _) k flag Hk. specialize (Hdom k).
  destruct (formal f !! k) as [fl|] eqn:Hfl; [|congruence].
  destruct Hdom as [val Hval]. rewrite Hval in Hk. injection Hk as <-.
  apply (Hwf k fl Hfl).
Qed.

Lemma Parse_rel (f f' : FlagSet) (a : list string) (e : option error) :
  Flag.Parse f a = (e, f') → pass_rel f f' e ∧ (wf f → wf f').
Proof.
  unfold Flag.Parse. intros Hrun. apply parse_loop_rel in Hrun.
  split; [exact Hrun|]. intros Hwf. eapply pass_rel_wf; [|exact Hrun]. exact Hwf.
Qed.

(** ** The map [unset] *)

Lemma foldl_insert_other (l : list Flag) :
  ∀ (acc : gmap string Flag) (n : string),
    (∀ fl, fl ∈ l → Name fl ≠ n) →
    foldl (λ m f, <[Name f := f]> m) acc l !! n = acc !! n.
Proof.
  induction l as [|a l IH]; intros acc n Hn; simpl; [done|].
  rewrite IH.
  - apply lookup_insert_ne. apply Hn, list_elem_of_here.
  - intros fl Hfl. apply Hn. by apply list_elem_of_further.
Qed.

Lemma foldl_insert_here (l : list Flag) :
  ∀ (acc : gmap string Flag) (fl : Flag),
    NoDup (Name <$> l) → fl ∈ l →
    foldl (λ m f, <[Name f := f]> m) acc l !! Name fl = Some fl.
Proof.
  induction l as [|a l IH]; intros acc fl Hnd Hin; simpl.
  - by apply elem_of_nil in Hin.
  - simpl in Hnd. apply NoDup_cons in Hnd as [Ha Hnd].
    apply elem_of_cons in Hin as [-> | Hin]; [|by apply IH].
    rewrite foldl_insert_other; [apply lookup_insert_eq|].
    intros fl Hfl Heq. apply Ha. rewrite <- Heq.
    apply list_elem_of_fmap. by exists fl.
Qed.

Lemma foldl_delete_lookup (l : list Flag) :
  ∀ (acc : gmap string Flag) (n : string),
    foldl (λ m f, delete (Name f) m) acc l !! n =
      if decide (n ∈ Name <$> l) then None else acc !! n.
Proof.
  induction l as [|a l IH]; intros acc n; simpl.
  - destruct (decide (n ∈ [])) as [Hin|]; [by apply elem_of_nil in Hin | done].
  - rewrite IH.
    destruct (decide (n ∈ Name <$> l)) as [Hin | Hnin].
    + rewrite decide_True; [done | by apply list_elem_of_further].
    + destruct (decide (n = Name a)) as [-> | Hne].
      * rewrite decide_True by apply list_elem_of_here. apply lookup_delete_eq.
      * rewrite decide_False.
        -- by apply lookup_delete_ne.
        -- intros Hin. apply elem_of_cons in Hin as [? | ?]; done.
Qed.

Lemma VisitAll_names (s : FlagSet) :
  wf s → Name <$> VisitAll s = (map_to_list (formal s)).*1.
Proof.
  intros Hwf. unfold VisitAll. rewrite <- list_fmap_compose.
  apply list_fmap_ext. intros i [k fl] Hi. simpl.
  apply list_elem_of_lookup_2, elem_of_map_to_list in Hi.
  apply (Hwf k fl Hi).
Qed.

Lemma elem_of_VisitAll (s : FlagSet) (fl : Flag) :
  wf s → fl ∈ VisitAll s ↔ formal s !! Name fl = Some fl.
Proof.
  intros Hwf. unfold VisitAll. rewrite list_elem_of_fmap. split.
  - intros ([k fl'] & -> & Hin). simpl. apply elem_of_map_to_list in Hin.
    by destruct (Hwf k fl' Hin) as [-> _].
  - intros Hfl. exists (Name fl, fl). split; [done|]. by apply elem_of_map_to_list.
Qed.

Lemma elem_of_Visit_names (s : FlagSet) (n : string) :
  wf s → n ∈ Name <$> Visit s ↔ n ∈ actual s ∧ is_Some (formal s !! n).
Proof.
  intros Hwf. unfold Visit. rewrite list_elem_of_fmap. split.
  - intros (fl & -> & Hin). apply list_elem_of_omap in Hin as (k & Hk & Hfl).
    apply elem_of_elements in Hk. destruct (Hwf k fl Hfl) as [-> _]. eauto.
  - intros [Hact [fl Hfl]]. exists fl. split; [by destruct (Hwf n fl Hfl) as [-> _]|].
    apply list_elem_of_omap. exists n. split; [by apply elem_of_elements | done].
Qed.

(** [unset] holds the registered flags that the first pass did not set. *)
Lemma unset_of_lookup (s : FlagSet) (n : string) :
  wf s →
  unset_of s !! n = if decide (n ∈ actual s) then None else formal s !! n.
Proof.
  intros Hwf. unfold unset_of. rewrite foldl_delete_lookup.
  assert (Hall : foldl (λ m f, <[Name f := f]> m) (∅ : gmap string Flag) (VisitAll s) !! n
                 = formal s !! n).
  { destruct (formal s !! n) as [fl|] eqn:Hfl.
    - destruct (Hwf n fl Hfl) as [<- _]. apply foldl_insert_here.
      + rewrite VisitAll_names by done. apply NoDup_fst_map_to_list.
      + by apply elem_of_VisitAll.
    - rewrite foldl_insert_other; [apply lookup_empty|].
      intros fl Hin <-. apply elem_of_VisitAll in Hin; [|done]. congruence. }
  destruct (decide (n ∈ Name <$> Visit s)) as [Hin | Hnin].
  - apply elem_of_Visit_names in Hin as [Hact _]; [|done]. by rewrite decide_True.
  - rewrite Hall. destruct (decide (n ∈ actual s)) as [Hact | Hact]; [|done].
    destruct (formal s !! n) as [fl|] eqn:Hfl; [|done].
    exfalso. apply Hnin. apply elem_of_Visit_names; eauto.
Qed.

(** ** The loop over [unset] and the two passes together *)

Section Passes.
Context `{UnicodeTables}.

Lemma foldl_range_body (pfx : string) (E : Environ) (l : list (string * Flag)) :
  ∀ a k, foldl (range_body pfx E) (a, k) l
         = (a ++ synth (env_entries pfx E l), k ++ env_keys pfx l).
Proof.
  induction l as [|[name f] l IH]; intros a k; simpl.
  - by rewrite !app_nil_r.
  - unfold env_entries. simpl. unfold env_entry at 1. simpl.
    destruct (env E (pfx +:+ name)) as [v|]; simpl; rewrite IH.
    + by rewrite <- !app_assoc.
    + by rewrite <- !app_assoc.
Qed.

(** [Parse] once its first pass has succeeded. *)
Lemma parse_first_ok (range : gmap string Flag → list (string * Flag))
    (E : Environ) (o : option_) (s1 : FlagSet) :
  Flag.Parse (set o) (args_ o) = (None, s1) →
  parse range E o =
    let l := range (unset_of s1) in
    match env_entries (prefix o) E l with
    | [] => {| err := None; final := s1; looked := env_keys (prefix o) l |}
    | entries =>
        {| err := (Flag.Parse s1 (synth entries ++ tail_of (Args s1))).1;
           final := (Flag.Parse s1 (synth entries ++ tail_of (Args s1))).2;
           looked := env_keys (prefix o) l |}
    end.
Proof.
  intros H1. unfold parse. rewrite H1, foldl_range_body.
  cbv zeta. rewrite !app_nil_l.
  destruct (env_entries (prefix o) E (range (unset_of s1))) as [|en es]; [done|].
  assert (Hlen : length (synth (en :: es)) ≠ 0) by done.
  revert Hlen. generalize (synth (en :: es)). intros a Ha.
  rewrite bool_decide_eq_false_2 by done.
  replace (if bool_decide (0 < length (Args s1)) then (a ++ ["--"]) ++ Args s1 else a)
    with (a ++ tail_of (Args s1)).
  - by destruct (Flag.Parse s1 (a ++ tail_of (Args s1))).
  - unfold tail_of. destruct (bool_decide (0 < length (Args s1))).
    + by rewrite <- app_assoc.
    + by rewrite app_nil_r.
Qed.

Lemma env_entries_sublist (pfx : string) (E : Environ) (l : list (string * Flag)) :
  (env_entries pfx E l).*1 `sublist_of` l.*1.
Proof.
  induction l as [|[name f] l IH]; simpl; [done|].
  unfold env_entries. simpl. unfold env_entry at 1. simpl.
  destruct (env E (pfx +:+ name)); simpl.
  - by apply sublist_skip.
  - by apply sublist_cons.
Qed.

Section Second.
Variable range : gmap string Flag → list (string * Flag).
Hypothesis Hrange : RangeOrder range.
Variables (E : Environ) (o : option_) (s1 : FlagSet).
Hypothesis Hwf : wf (set o).
Hypothesis Hfirst : Flag.Parse (set o) (args_ o) = (None, s1).

Let entries := env_entries (prefix o) E (range (unset_of s1)).

Lemma first_pass_wf : wf s1.
Proof. by apply (Parse_rel _ _ _ _ Hfirst). Qed.

Lemma range_unset (n : string) (flag : Flag) :
  (n, flag) ∈ range (unset_of s1) ↔ formal s1 !! n = Some flag ∧ n ∉ actual s1.
Proof.
  rewrite (Hrange (unset_of s1)), elem_of_map_to_list,
    (unset_of_lookup _ _ first_pass_wf).
  destruct (decide (n ∈ actual s1)); naive_solver.
Qed.

Lemma entries_NoDup : NoDup entries.*1.
Proof.
  eapply sublist_NoDup; [|apply env_entries_sublist].
  rewrite (Hrange (unset_of s1)). apply NoDup_fst_map_to_list.
Qed.

Lemma elem_of_entries (n v : string) :
  (n, v) ∈ entries ↔
  ∃ flag w, formal s1 !! n = Some flag ∧ (n ∉ actual s1) ∧
            env E (prefix o +:+ n) = Some w ∧
            v = (if isBoolFlag (Value_ flag) then normalize w else w).
Proof.
  unfold entries, env_entries. rewrite list_elem_of_omap. split.
  - intros ([k flag] & Hin & Hen). apply range_unset in Hin as [Hfl Hact].
    unfold env_entry in Hen. simpl in Hen.
    destruct (env E (prefix o +:+ k)) as [w|] eqn:Hw; [|done].
    injection Hen as <- <-. by exists flag, w.
  - intros (flag & w & Hfl & Hact & Hw & ->). exists (n, flag).
    split; [by apply range_unset|]. unfold env_entry. simpl. by rewrite Hw.
Qed.

Lemma entries_names : Forall (λ en, Strings.contains_byte "=" en.1 = false) entries.
Proof.
  apply Forall_forall. intros [n v] Hin.
  apply elem_of_entries in Hin as (flag & _ & Hfl & _). simpl.
  apply (first_pass_wf n flag Hfl).
Qed.

(** What the second pass leaves, whether it fails or not, and what it
    leaves when [Parse] succeeds. *)
Lemma second_pass :
  (∀ n, touched entries s1 (final (parse range E o)) n) ∧
  (err (parse range E o) = None →
     Args (final (parse range E o)) = Args s1 ∧
     all_applied entries s1 (final (parse range E o))).
Proof.
  rewrite (parse_first_ok range E o s1 Hfirst). cbv zeta. fold entries.
  destruct entries as [|en es] eqn:Hen; cbv beta iota.
  - split; [by left|]. intros _. split; [done|].
    intros n v Hin. by apply elem_of_nil in Hin.
  - rewrite <- Hen.
    destruct (Flag.Parse s1 (synth entries ++ tail_of (Args s1))) as [e f'] eqn:Hrun.
    unfold Flag.Parse in Hrun.
    eapply (parse_loop_synth entries _ _ (Args s1)) in Hrun as [Htouch Hok].
    + split; [exact Htouch|]. intros He. destruct (Hok He) as (Ha & Hall & _). done.
    + apply entries_NoDup.
    + apply entries_names.
    + reflexivity.
    + rewrite length_app. unfold synth. rewrite length_fmap. lia.
Qed.

End Second.

End Passes.

(** ** The specification's wording of the two string rules *)

Lemma map_bytes_ext (f g : ascii → ascii) (s : string) :
  (∀ c, f c = g c) → Strings.map_bytes f s = Strings.map_bytes g s.
Proof. intros Hfg. induction s as [|c s IH]; simpl; [done|]. by rewrite Hfg, IH. Qed.

Lemma map_bytes_compose (f g : ascii → ascii) (s : string) :
  Strings.map_bytes g (Strings.map_bytes f s) = Strings.map_bytes (λ c, g (f c)) s.
Proof. induction s as [|c s IH]; simpl; [done|]. by rewrite IH. Qed.

Lemma envKey_spec `{UnicodeTables} (pfx name : string) :
  envKey (pfx +:+ name) = spec_key pfx name.
Proof.
  unfold envKey, spec_key, Strings.Replace. rewrite map_bytes_compose.
  apply map_bytes_ext. intros c.
  destruct (Ascii.eqb c ".") eqn:Hdot; simpl; [done|].
  by destruct (Ascii.eqb c "-").
Qed.

Lemma fold_eq_lower (s : string) :
  ∀ t, fold_eq s t = true ↔
       Strings.map_bytes Strings.lower_byte s = Strings.map_bytes Strings.lower_byte t.
Proof.
  induction s as [|a s IH]; intros [|b t]; simpl; try done.
  rewrite andb_true_iff, Ascii.eqb_eq, IH. split.
  - by intros [-> ->].
  - intros [= -> ->]. done.
Qed.

Lemma lower_byte_ascii (b : ascii) :
  Strings.byte_lt b 128 = true → Strings.byte_lt (Strings.lower_byte b) 128 = true.
Proof.
  unfold Strings.lower_byte, Strings.is_upper_byte, Strings.in_range, Strings.byte_lt.
  intros Hb. destruct ((65 <=? N_of_ascii b)%N && (N_of_ascii b <=? 90)%N) eqn:Hup; [|done].
  apply andb_true_iff in Hup as [_ Hup]. apply N.leb_le in Hup.
  rewrite N_ascii_embedding by lia. apply N.ltb_lt. lia.
Qed.

Lemma lower_byte_ascii_inv (a : ascii) :
  Strings.byte_lt (Strings.lower_byte a) 128 = true → Strings.byte_lt a 128 = true.
Proof.
  unfold Strings.lower_byte, Strings.is_upper_byte, Strings.in_range, Strings.byte_lt.
  destruct ((65 <=? N_of_ascii a)%N && (N_of_ascii a <=? 90)%N) eqn:Hup; [|done].
  intros _. apply andb_true_iff in Hup as [_ Hup]. apply N.leb_le in Hup.
  apply N.ltb_lt. lia.
Qed.

Lemma fold_eq_ascii (s : string) :
  ∀ t, fold_eq s t = true → Strings.isASCII t = true → Strings.isASCII s = true.
Proof.
  induction s as [|a s IH]; intros [|b t]; simpl; try done.
  rewrite !andb_true_iff, Ascii.eqb_eq. intros [Hab Hst] [Hb Ht]. split.
  - apply lower_byte_ascii_inv. rewrite Hab. by apply lower_byte_ascii.
  - by apply (IH t).
Qed.

(** On a list of lower-case ASCII words, membership of the lower-cased
    string is case-insensitive membership of the string. *)
Lemma lower_mem_fold_eq (v : string) (L : list string) :
  Forall (λ t, Strings.map_bytes Strings.lower_byte t = t) L →
  bool_decide (Strings.map_bytes Strings.lower_byte v ∈ L) = existsb (fold_eq v) L.
Proof.
  induction 1 as [|t L Ht _ IH].
  - apply bool_decide_eq_false_2. by intros Hin%elem_of_nil.
  - cbn [existsb]. rewrite <- IH. destruct (fold_eq v t) eqn:Hf; simpl.
    + apply bool_decide_eq_true_2. apply fold_eq_lower in Hf. rewrite Hf, Ht.
      apply list_elem_of_here.
    + apply bool_decide_ext. rewrite elem_of_cons. split; [|by right].
      intros [Heq | Hin]; [|done]. exfalso.
      assert (fold_eq v t = true); [|congruence].
      apply fold_eq_lower. by rewrite Heq, Ht.
Qed.

(** The code's normalization is the specification's; for a string with a
    byte outside ASCII this rests on the Unicode table not lower-casing it
    to one of the eight words. *)
Lemma normalize_spec `{UnicodeTables} (v : string) :
  (Strings.isASCII v = false → mapToLower v ∉ truthy ++ falsy) →
  normalize v = spec_normalize v.
Proof.
  intros Htable. unfold normalize, spec_normalize, Strings.ToLower.
  destruct (Strings.isASCII v) eqn:Hascii.
  - unfold truthy, falsy.
    rewrite (lower_mem_fold_eq v ["true"; "yes"; "y"; "1"]),
      (lower_mem_fold_eq v ["false"; "no"; "n"; "0"]);
      [done | |]; by repeat constructor.
  - specialize (Htable eq_refl).
    assert (Hno : ∀ L, Forall (λ t, Strings.isASCII t = true) L → existsb (fold_eq v) L = false).
    { intros L HL. apply not_true_is_false. intros Hex.
      apply existsb_exists in Hex as (t & Hin & Hf).
      apply list_elem_of_In in Hin.
      rewrite Forall_forall in HL. specialize (HL t Hin).
      pose proof (fold_eq_ascii v t Hf HL). congruence. }
    rewrite (Hno truthy), (Hno falsy) by (by repeat constructor).
    rewrite !bool_decide_eq_false_2; [done | |];
      intros Hin; apply Htable; apply elem_of_app; auto.
Qed.

(** ** The second pass, entry by entry *)

(** [parseOne] on a synthesized argument, as a function of the flag set. *)
Lemma parseOne_synth_eq (f : FlagSet) (name v : string) (rest : list string) :
  args f = mkArg name v :: rest →
  Strings.contains_byte "=" name = false →
  parseOne f =
    if negb (valid_name name) then (false, Some (errBadSyntax (mkArg name v)), f)
    else match formal f !! name with
         | None =>
             (false,
              Some (if bool_decide (name = "help") || bool_decide (name = "h")
                    then ErrHelp else errNotDefined name),
              set_args f rest)
         | Some flag =>
             let f1 := {| parsed := parsed f; actual := actual f;
                          formal := <[name := with_Value flag (Value_Set (Value_ flag) v).1]>
                                      (formal f);
                          args := rest |} in
             match (Value_Set (Value_ flag) v).2 with
             | Some e =>
                 (false,
                  Some (if isBoolFlag (Value_ flag) then errInvalidBoolValue v name e
                        else errInvalidValue v name e),
                  f1)
             | None => (true, None, mark_actual f1 name)
             end
         end.
Proof.
  intros Hargs Hname. unfold parseOne, valid_name. rewrite Hargs.
  unfold mkArg. simpl.
  destruct name as [|c name]; [reflexivity|].
  simpl in Hname. apply orb_false_iff in Hname as [Hc Hname].
  simpl. destruct (Ascii.eqb c "-") eqn:Hminus; simpl; [reflexivity|].
  rewrite Hc. simpl.
  destruct (findEq_app name v) as (a & b & Hf & Hab).
  destruct (Hab Hname) as [-> ->]. simpl in Hf. rewrite Hf. simpl.
  destruct (formal f !! String c name) as [flag|] eqn:Hflag.
  2:{ by destruct (bool_decide (String c name = "help") || bool_decide (String c name = "h")). }
  change (is_boolFlag (Value_ flag)) with (isBoolFlag (Value_ flag)).
  rewrite !set_flag_spec. simpl.
  destruct (isBoolFlag (Value_ flag));
    destruct (Value_Set (Value_ flag) v) as [val [e|]]; reflexivity.
Qed.

Lemma entry_error_lookup (f g : FlagSet) (n v : string) :
  formal g !! n = formal f !! n → entry_error g n v = entry_error f n v.
Proof. unfold entry_error. by intros ->. Qed.

(** The outcome of the loop over synthesized arguments: it succeeds when no
    entry has an error, and an error it returns is the error of an entry,
    judged on the flag set the loop started from. *)
Lemma parse_loop_synth_error (entries : list (string * string)) :
  ∀ (f : FlagSet) (fuel : nat) (pos : list string) (e : option error) (f' : FlagSet),
    NoDup entries.*1 →
    Forall (λ en, Strings.contains_byte "=" en.1 = false) entries →
    args f = synth entries ++ tail_of pos →
    length entries < fuel →
    parse_loop fuel f = (e, f') →
    parsed f' = parsed f ∧
    match e with
    | None => ∀ n v, (n, v) ∈ entries → entry_error f n v = None
    | Some err => ∃ n v, (n, v) ∈ entries ∧ entry_error f n v = Some err
    end.
Proof.
  induction entries as [|[n v] es IH]; intros f fuel pos e f' Hnd Hwf Hargs Hfuel Hrun.
  - destruct fuel as [|fuel]; [lia|].
    destruct (parse_loop_tail fuel f pos Hargs) as (g & Hg & Hform & Hact & Hpos).
    assert (Hparsed : parsed g = parsed f).
    { revert Hg. unfold tail_of in Hargs. simpl. unfold parseOne. rewrite Hargs.
      destruct pos; simpl; by intros [= <-]. }
    rewrite Hg in Hrun. injection Hrun as <- <-. split; [done|].
    intros m w Hin. by apply elem_of_nil in Hin.
  - destruct fuel as [|fuel]; [simpl in Hfuel; lia|].
    simpl in Hargs, Hfuel.
    apply NoDup_cons in Hnd as [Hn Hnd].
    apply Forall_cons in Hwf as [Hname Hwf]. simpl in Hname.
    simpl in Hrun. rewrite (parseOne_synth_eq f n v _ Hargs Hname) in Hrun.
    assert (Hhead : (n, v) ∈ (n, v) :: es) by apply list_elem_of_here.
    destruct (negb (valid_name n)) eqn:Hvalid.
    { injection Hrun as <- <-. split; [done|]. exists n, v. split; [done|].
      unfold entry_error. by rewrite Hvalid. }
    destruct (formal f !! n) as [flag|] eqn:Hflag.
    2:{ injection Hrun as <- <-. split; [done|]. exists n, v. split; [done|].
        unfold entry_error. by rewrite Hvalid, Hflag. }
    cbv zeta in Hrun.
    destruct ((Value_Set (Value_ flag) v).2) as [se|] eqn:Hset.
    { injection Hrun as <- <-. split; [done|]. exists n, v. split; [done|].
      unfold entry_error. by rewrite Hvalid, Hflag, Hset. }
    eapply (IH _ fuel pos) in Hrun as [Hparsed Hres]; [|done|done|done|lia].
    split; [exact Hparsed|].
    assert (Hother : ∀ m w, (m, w) ∈ es →
              entry_error (mark_actual
                {| parsed := parsed f; actual := actual f;
                   formal := <[n := with_Value flag (Value_Set (Value_ flag) v).1]> (formal f);
                   args := synth es ++ tail_of pos |} n) m w
              = entry_error f m w).
    { intros m w Hin. apply entry_error_lookup. simpl. apply lookup_insert_ne.
      intros ->. apply Hn. apply list_elem_of_fmap. by exists (m, w). }
    destruct e as [err|].
    + destruct Hres as (m & w & Hin & Herr). exists m, w.
      split; [by apply list_elem_of_further|]. by rewrite <- (Hother m w Hin).
    + intros m w Hin. apply elem_of_cons in Hin as [[= -> ->] | Hin].
      * unfold entry_error. by rewrite Hvalid, Hflag, Hset.
      * rewrite <- (Hother m w Hin). by apply Hres.
Qed.

Lemma stopped_at_lookup (f g f' : FlagSet) (n v : string) :
  formal g !! n = formal f !! n → stopped_at g f' n v → stopped_at f f' n v.
Proof. unfold stopped_at. by intros ->. Qed.

(** A loop over synthesized arguments that returns an error stopped at one
    entry: the error is that entry's and its flag holds what [Set] left;
    the entries before it were applied, with values [Set] accepted, and the
    flags of the entries after it are as they were. *)
Lemma parse_loop_synth_stop (entries : list (string * string)) :
  ∀ (f : FlagSet) (fuel : nat) (pos : list string) (e : error) (f' : FlagSet),
    NoDup entries.*1 →
    Forall (λ en, Strings.contains_byte "=" en.1 = false) entries →
    args f = synth entries ++ tail_of pos →
    length entries < fuel →
    parse_loop fuel f = (Some e, f') →
    ∃ before n v after,
      entries = before ++ (n, v) :: after
      ∧ entry_error f n v = Some e
      ∧ stopped_at f f' n v
      ∧ all_applied before f f'
      ∧ ∀ m w, (m, w) ∈ after → formal f' !! m = formal f !! m.
Proof.
  induction entries as [|[n v] es IH]; intros f fuel pos e f' Hnd Hwf Hargs Hfuel Hrun.
  - destruct fuel as [|fuel]; [lia|].
    destruct (parse_loop_tail fuel f pos Hargs) as (g & Hg & _). congruence.
  - destruct fuel as [|fuel]; [simpl in Hfuel; lia|].
    simpl in Hargs, Hfuel.
    apply NoDup_cons in Hnd as [Hn Hnd].
    apply Forall_cons in Hwf as [Hname Hwf]. simpl in Hname.
    simpl in Hrun. rewrite (parseOne_synth_eq f n v _ Hargs Hname) in Hrun.
    assert (Hes : ∀ m w, (m, w) ∈ es → m ≠ n).
    { intros m w Hin ->. apply Hn. apply list_elem_of_fmap. by exists (n, w). }
    assert (Hnil : ∀ g, all_applied [] f g).
    { intros g m w Hin. by apply elem_of_nil in Hin. }
    destruct (negb (valid_name n)) eqn:Hvalid.
    { injection Hrun as <- <-. exists [], n, v, es. split; [done|].
      apply negb_true_iff in Hvalid.
      split; [unfold entry_error; by rewrite Hvalid|]. split; [|by split].
      unfold stopped_at. rewrite Hvalid. by destruct (formal f !! n). }
    apply negb_false_iff in Hvalid.
    destruct (formal f !! n) as [flag|] eqn:Hflag.
    2:{ injection Hrun as <- <-. exists [], n, v, es. split; [done|].
        split; [unfold entry_error; by rewrite Hvalid, Hflag|]. split; [|by split].
        unfold stopped_at. by rewrite Hflag. }
    cbv zeta in Hrun.
    destruct ((Value_Set (Value_ flag) v).2) as [se|] eqn:Hset.
    { injection Hrun as <- <-. exists [], n, v, es. split; [done|].
      split; [unfold entry_error; by rewrite Hvalid, Hflag, Hset|]. split; [|split].
      - unfold stopped_at. rewrite Hflag, Hvalid. simpl. apply lookup_insert_eq.
      - apply Hnil.
      - intros m w Hin. simpl. apply lookup_insert_ne. intros ->. by apply (Hes _ _ Hin). }
    set (f1 := mark_actual
                 {| parsed := parsed f; actual := actual f;
                    formal := <[n := with_Value flag (Value_Set (Value_ flag) v).1]> (formal f);
                    args := synth es ++ tail_of pos |} n) in Hrun.
    assert (Hf1 : ∀ m, m ≠ n → formal f1 !! m = formal f !! m).
    { intros m Hne. simpl. by apply lookup_insert_ne. }
    destruct (parse_loop_synth es f1 fuel pos _ _ Hnd Hwf eq_refl ltac:(lia) Hrun)
      as [Htouch _].
    destruct (IH f1 fuel pos e f' Hnd Hwf eq_refl ltac:(lia) Hrun)
      as (before & n' & v' & after & Heq & Herr' & Hstop' & Hbefore & Hafter).
    assert (Hin' : (n', v') ∈ es).
    { rewrite Heq. apply elem_of_app. right. apply list_elem_of_here. }
    pose proof (Hes n' v' Hin') as Hne'.
    exists ((n, v) :: before), n', v', after. split; [simpl; by rewrite Heq|].
    split; [by rewrite <- (entry_error_lookup f f1 n' v' (Hf1 n' Hne'))|].
    split; [apply (stopped_at_lookup f f1 f' n' v' (Hf1 n' Hne') Hstop')|]. split.
    + intros m w Hin. apply elem_of_cons in Hin as [[= -> ->] | Hin].
      * exists flag, (Value_Set (Value_ flag) v).1. split; [done|]. split.
        -- destruct (Value_Set (Value_ flag) v) as [val se]. simpl in *. by subst.
        -- destruct (Htouch n) as [-> | (w & fl & Hin & _)].
           ++ simpl. apply lookup_insert_eq.
           ++ by destruct (Hes n w Hin).
      * destruct (Hbefore m w Hin) as (fl & val & Hfl & Hval & Hfin).
        exists fl, val. split; [|done]. rewrite <- Hf1; [done|].
        apply (Hes m w). rewrite Heq. apply elem_of_app. by left.
    + intros m w Hin. rewrite (Hafter m w Hin). apply Hf1, (Hes m w).
      rewrite Heq. apply elem_of_app. right. by apply list_elem_of_further.
Qed.

(** ** Every call of [parseOne] *)

(** [parseOne] leaves [parsed] as it is and only drops arguments from the
    front of [args]. *)
Lemma parseOne_args (f f' : FlagSet) (seen : bool) (e : option error) :
  parseOne f = (seen, e, f') → parsed f' = parsed f ∧ args f' `suffix_of` args f.
Proof.
  unfold parseOne. intros Hp.
  repeat case_match; simplify_eq; simpl in *;
    repeat match goal with
    | H : set_flag _ _ _ _ = _ |- _ => rewrite set_flag_spec in H; simplify_eq; simpl in *
    | H : args _ = _ |- _ => rewrite H in *; simpl in *
    end;
    (split; [reflexivity|]);
    first [ done | by apply suffix_cons_r | by do 2 apply suffix_cons_r ].
Qed.

Lemma parse_loop_args (fuel : nat) :
  ∀ (f f' : FlagSet) (e : option error),
    parse_loop fuel f = (e, f') → parsed f' = parsed f ∧ args f' `suffix_of` args f.
Proof.
  induction fuel as [|fuel IH]; intros f f' e Hrun; simpl in Hrun.
  - by injection Hrun as <- <-.
  - destruct (parseOne f) as [[seen e1] f1] eqn:Hone.
    apply parseOne_args in Hone as [Hparsed Hsuffix].
    destruct seen.
    + apply IH in Hrun as [Hparsed' Hsuffix']. split; [congruence|].
      by transitivity (args f1).
    + by destruct e1; injection Hrun as <- <-.
Qed.

Lemma Parse_args (f f' : FlagSet) (a : list string) (e : option error) :
  Flag.Parse f a = (e, f') → parsed f' = true ∧ args f' `suffix_of` a.
Proof. unfold Flag.Parse. intros Hrun. by apply parse_loop_args in Hrun. Qed.

(** ** The outcome of the two passes *)

Section Outcome.
Context `{UnicodeTables}.
Variable range : gmap string Flag → list (string * Flag).
Hypothesis Hrange : RangeOrder range.
Variables (E : Environ) (o : option_) (s1 : FlagSet).
Hypothesis Hwf : wf (set o).
Hypothesis Hfirst : Flag.Parse (set o) (args_ o) = (None, s1).

Let entries := env_entries (prefix o) E (range (unset_of s1)).

Lemma second_pass_outcome :
  parsed (final (parse range E o)) = true ∧
  (err (parse range E o) = None →
     actual (final (parse range E o)) = list_to_set entries.*1 ∪ actual s1) ∧
  match err (parse range E o) with
  | None => ∀ n v, (n, v) ∈ entries → entry_error s1 n v = None
  | Some e => ∃ n v, (n, v) ∈ entries ∧ entry_error s1 n v = Some e
  end.
Proof.
  rewrite (parse_first_ok range E o s1 Hfirst). cbv zeta. fold entries.
  destruct entries as [|en es] eqn:Hen; cbv beta iota.
  - simpl. split; [by apply (Parse_args _ _ _ _ Hfirst)|]. split.
    + intros _. set_solver.
    + intros n v Hin. by apply elem_of_nil in Hin.
  - rewrite <- Hen.
    destruct (Flag.Parse s1 (synth entries ++ tail_of (Args s1))) as [e f'] eqn:Hrun.
    unfold Flag.Parse in Hrun. simpl.
    assert (Hlen : length entries < S (length (synth entries ++ tail_of (Args s1)))).
    { rewrite length_app. unfold synth. rewrite length_fmap. lia. }
    set (f0 := {| parsed := true; actual := actual s1; formal := formal s1;
                  args := synth entries ++ tail_of (Args s1) |}) in Hrun.
    pose proof (parse_loop_synth entries f0 _ (Args s1) _ _
                  (entries_NoDup range Hrange E o s1)
                  (entries_names range Hrange E o s1 Hwf Hfirst) eq_refl Hlen Hrun)
      as [_ Hok].
    pose proof (parse_loop_synth_error entries f0 _ (Args s1) _ _
                  (entries_NoDup range Hrange E o s1)
                  (entries_names range Hrange E o s1 Hwf Hfirst) eq_refl Hlen Hrun)
      as [Hparsed Herr].
    split; [exact Hparsed|]. split.
    + intros He. by destruct (Hok He) as (_ & _ & Hact).
    + exact Herr.
Qed.

End Outcome.

(** ** A second pass that fails *)

Section Stop.
Context `{UnicodeTables}.
Variable range : gmap string Flag → list (string * Flag).
Hypothesis Hrange : RangeOrder range.
Variables (E : Environ) (o : option_) (s1 : FlagSet).
Hypothesis Hwf : wf (set o).
Hypothesis Hfirst : Flag.Parse (set o) (args_ o) = (None, s1).

Let entries := env_entries (prefix o) E (range (unset_of s1)).

(** A failed second pass, entry by entry. *)
Lemma second_pass_stop (e : error) :
  err (parse range E o) = Some e →
  ∃ before n v after,
    entries = before ++ (n, v) :: after
    ∧ entry_error s1 n v = Some e
    ∧ stopped_at s1 (final (parse range E o)) n v
    ∧ all_applied before s1 (final (parse range E o))
    ∧ ∀ m w, (m, w) ∈ after → formal (final (parse range E o)) !! m = formal s1 !! m.
Proof.
  rewrite (parse_first_ok range E o s1 Hfirst). cbv zeta. fold entries.
  destruct entries as [|en es] eqn:Hen; cbv beta iota; [done|].
  rewrite <- Hen.
  destruct (Flag.Parse s1 (synth entries ++ tail_of (Args s1))) as [e' f'] eqn:Hrun.
  unfold Flag.Parse in Hrun. simpl. intros ->.
  assert (Hlen : length entries < S (length (synth entries ++ tail_of (Args s1)))).
  { rewrite length_app. unfold synth. rewrite length_fmap. lia. }
  set (f0 := {| parsed := true; actual := actual s1; formal := formal s1;
                args := synth entries ++ tail_of (Args s1) |}) in Hrun.
  exact (parse_loop_synth_stop entries f0 _ (Args s1) _ _
           (entries_NoDup range Hrange E o s1)
           (entries_names range Hrange E o s1 Hwf Hfirst) eq_refl Hlen Hrun).
Qed.

End Stop.

(** ** What a rejected value leaves *)

(** The engine's parsers assign before they return the error. *)
Lemma ParseInt_syntax (s : string) :
  (Strconv.ParseInt s).2 = Some Strconv.ErrSyntax → (Strconv.ParseInt s).1 = 0%Z.
Proof.
  unfold Strconv.ParseInt. destruct s as [|c0 rest]; [done|].
  destruct (if Ascii.eqb c0 "+" then (false, rest)
            else if Ascii.eqb c0 "-" then (true, rest) else (false, String c0 rest))
    as [neg s'].
  destruct (Strconv.ParseUint s') as [un [[]|]]; [done|..];
    repeat case_match; simpl; congruence.
Qed.

Lemma intValue_Set_rejected (z : Z) (s : string) :
  (Value_Set (mkValue intValue z) s).2 = Some errParse →
  (Value_Set (mkValue intValue z) s).1 = mkValue intValue 0%Z.
Proof.
  unfold Value_Set. simpl. pose proof (ParseInt_syntax s) as Hs.
  destruct (Strconv.ParseInt s) as [v [[]|]]; simpl in *; intros He; try discriminate.
  by rewrite Hs.
Qed.

Lemma boolValue_Set_rejected (b : bool) (s : string) :
  (Value_Set (mkValue boolValue b) s).2 ≠ None →
  (Value_Set (mkValue boolValue b) s).1 = mkValue boolValue false.
Proof.
  unfold Value_Set. simpl. unfold Strconv.ParseBool.
  destruct (bool_decide (s ∈ ["1"; "t"; "T"; "true"; "TRUE"; "True"]));
    [simpl; intros Hn; by destruct Hn|].
  destruct (bool_decide (s ∈ ["0"; "f"; "F"; "false"; "FALSE"; "False"]));
    simpl; intros Hn; [by destruct Hn | reflexivity].
Qed.

(** * The claims *)

Section Claims.
Context `{UnicodeTables}.
Variable range : gmap string Flag → list (string * Flag).

Lemma Parse_first_failed (P : Process) (options : list Option)
    (e : error) (s1 : FlagSet) :
  first_pass (configure P options) = (Some e, s1) →
  Parse range P options = {| err := Some e; final := s1; looked := [] |}.
Proof. unfold first_pass, Parse, parse. by intros ->. Qed.

Lemma Parse_ok_first_ok (P : Process) (options : list Option) :
  err (Parse range P options) = None →
  first_pass (configure P options) = (None, (first_pass (configure P options)).2).
Proof.
  destruct (first_pass (configure P options)) as [[e|] s1] eqn:H1; [|done].
  by rewrite (Parse_first_failed P options e s1 H1).
Qed.

(** A flag set by the first pass is outside [unset] and keeps its value. *)
Lemma set_flag_kept (P : Process) (options : list Option) (name : string) :
  RangeOrder range →
  let o := configure P options in
  let s1 := (first_pass o).2 in
  wf (set o) →
  name ∈ actual s1 →
  unset_of s1 !! name = None
  ∧ (name ∉ (range (unset_of s1)).*1)
  ∧ formal (final (Parse range P options)) !! name = formal s1 !! name.
Proof.
  intros Hrange o s1 Hwf Hset.
  assert (Hwf1 : wf s1).
  { subst s1. destruct (first_pass o) as [e s] eqn:H1. by apply (Parse_rel _ _ _ _ H1). }
  assert (Hun : unset_of s1 !! name = None).
  { rewrite unset_of_lookup by done. by rewrite decide_True. }
  split; [exact Hun|]. split.
  - rewrite (Hrange (unset_of s1)). intros Hin.
    apply list_elem_of_fmap in Hin as ([k fl] & -> & Hin).
    apply elem_of_map_to_list in Hin. simpl in Hun. congruence.
  - subst s1. destruct (first_pass o) as [[e|] s] eqn:H1; simpl in *.
    + by rewrite (Parse_first_failed P options e s H1).
    + destruct (second_pass range Hrange (environ P) o s Hwf H1) as [Htouch _].
      destruct (Htouch name) as [Hsame | (v & fl & Hin & _)]; [exact Hsame|].
      apply (elem_of_entries range Hrange _ _ _ Hwf H1) in Hin
        as (? & ? & _ & Hact & _). done.
Qed.

(** What a successful [Parse] leaves of a flag the first pass did not set. *)
Lemma unset_flag_resolved (P : Process) (options : list Option)
    (name : string) (flag : Flag) :
  RangeOrder range →
  let o := configure P options in
  let R := Parse range P options in
  wf (set o) →
  err R = None →
  formal (set o) !! name = Some flag →
  name ∉ actual (first_pass o).2 →
  match env (environ P) (prefix o +:+ name) with
  | Some v =>
      ∃ val,
        Value_Set (Value_ flag) (if isBoolFlag (Value_ flag) then normalize v else v)
          = (val, None)
        ∧ formal (final R) !! name = Some (with_Value flag val)
  | None => formal (final R) !! name = Some flag
  end.
Proof.
  intros Hrange o R Hwf Hok Hflag Hunset.
  pose proof (Parse_ok_first_ok P options Hok) as H1. fold o in H1.
  set (s1 := (first_pass o).2) in *.
  destruct (Parse_rel _ _ _ _ H1) as [(_ & _ & Hkeep) _].
  assert (Hflag1 : formal s1 !! name = Some flag) by (by rewrite Hkeep).
  destruct (second_pass range Hrange (environ P) o s1 Hwf H1) as [Htouch Hsucc].
  destruct (Hsucc Hok) as [_ Hall].
  destruct (env (environ P) (prefix o +:+ name)) as [v|] eqn:Hv.
  - destruct (Hall name (if isBoolFlag (Value_ flag) then normalize v else v))
      as (fl & val & Hfl & Hval & Hfin).
    { apply (elem_of_entries range Hrange _ _ _ Hwf H1). by exists flag, v. }
    assert (fl = flag) as -> by congruence. by exists val.
  - destruct (Htouch name) as [Hsame | (v & fl & Hin & _)]; [by rewrite <- Hflag1|].
    apply (elem_of_entries range Hrange _ _ _ Hwf H1) in Hin
      as (? & ? & _ & _ & Hw & _). congruence.
Qed.

(** C1. A flag set by the argument list is not an entry of [unset], so the
    loop over [unset] has no iteration (and no environment lookup) for it,
    and after [Parse] it holds the value the first pass gave it, whatever
    the environment holds and whether or not [Parse] succeeds. *)
Theorem C1_command_line_wins (P : Process) (options : list Option) (name : string) :
  RangeOrder range →
  let o := configure P options in
  let s1 := (first_pass o).2 in
  wf (set o) →
  name ∈ actual s1 →
  unset_of s1 !! name = None
  ∧ (name ∉ (range (unset_of s1)).*1)
  ∧ formal (final (Parse range P options)) !! name = formal s1 !! name.
Proof. intros Hrange o s1 Hwf Hset. by apply set_flag_kept. Qed.

(** C2. After a first pass that succeeds, a registered flag that the
    argument list did not set is, if the environment lacks its key, as it
    was before the call, whether or not [Parse] succeeds; if the environment
    has its key and [Parse] succeeds, it holds what its [Set] made of the
    environment value, which [Set] accepted: of the value as it is for a
    flag that is not boolean-style and, for a boolean-style flag, of the
    value normalized as the specification words it ([spec_normalize]: a
    truthy word becomes [true], a falsy word [false], case-insensitively).
    For a value with non-ASCII bytes the Unicode tables are assumed not to
    lower-case it to one of the eight words. *)
Theorem C2_environment_applies (P : Process) (options : list Option)
    (name : string) (flag : Flag) :
  RangeOrder range →
  let o := configure P options in
  let R := Parse range P options in
  wf (set o) →
  (first_pass o).1 = None →
  formal (set o) !! name = Some flag →
  name ∉ actual (first_pass o).2 →
  (env (environ P) (prefix o +:+ name) = None → formal (final R) !! name = Some flag)
  ∧ (∀ v, env (environ P) (prefix o +:+ name) = Some v →
       (isBoolFlag (Value_ flag) = true → Strings.isASCII v = false →
        mapToLower v ∉ truthy ++ falsy) →
       err R = None →
       ∃ val,
         Value_Set (Value_ flag) (if isBoolFlag (Value_ flag) then spec_normalize v else v)
           = (val, None)
         ∧ formal (final R) !! name = Some (with_Value flag val)).
Proof.
  intros Hrange o R Hwf H1 Hflag Hunset.
  set (s1 := (first_pass o).2) in *.
  assert (Hfirst : first_pass o = (None, s1)).
  { subst s1. destruct (first_pass o); simpl in *; by subst. }
  destruct (Parse_rel _ _ _ _ Hfirst) as [(_ & _ & Hkeep) _].
  assert (Hflag1 : formal s1 !! name = Some flag) by (by rewrite Hkeep).
  destruct (second_pass range Hrange (environ P) o s1 Hwf Hfirst) as [Htouch Hsucc].
  split.
  - intros Hnone.
    destruct (Htouch name) as [Hsame | (v & fl & Hin & _)]; [by rewrite <- Hflag1|].
    apply (elem_of_entries range Hrange _ _ _ Hwf Hfirst) in Hin
      as (? & ? & _ & _ & Hw & _). congruence.
  - intros v Hv Htable Hok. destruct (Hsucc Hok) as [_ Hall].
    assert (Hnorm : (if isBoolFlag (Value_ flag) then spec_normalize v else v)
                    = (if isBoolFlag (Value_ flag) then normalize v else v)).
    { destruct (isBoolFlag (Value_ flag)); [|done].
      symmetry. apply normalize_spec. by apply Htable. }
    rewrite Hnorm.
    destruct (Hall name (if isBoolFlag (Value_ flag) then normalize v else v))
      as (fl & val & Hfl & Hval & Hfin).
    { apply (elem_of_entries range Hrange _ _ _ Hwf Hfirst). by exists flag, v. }
    assert (fl = flag) as -> by congruence. by exists val.
Qed.

(** C6. If the first pass fails, [Parse] returns its error at once: the
    flag set is as the first pass left it and no environment key was looked
    up, so the outcome is the same in every environment. *)
Theorem C6_first_pass_failure (P : Process) (options : list Option) (e : error) :
  (first_pass (configure P options)).1 = Some e →
  Parse range P options
  = {| err := Some e; final := (first_pass (configure P options)).2; looked := [] |}
  ∧ ∀ E', Parse range (mkProcess (CommandLine P) (os_Args P) E') options
          = Parse range P options.
Proof.
  intros H1.
  assert (Hfirst : first_pass (configure P options)
                   = (Some e, (first_pass (configure P options)).2)).
  { destruct (first_pass (configure P options)); simpl in *; by subst. }
  split; [by apply Parse_first_failed|].
  intros E'. rewrite (Parse_first_failed P options e _ Hfirst).
  by apply Parse_first_failed.
Qed.

(** When an unset flag's [Set] rejects the value synthesized for it,
    [Parse] fails, at that flag or before it. *)
Lemma rejected_value_fails (P : Process) (options : list Option)
    (name : string) (flag : Flag) (v : string) :
  RangeOrder range →
  let o := configure P options in
  let s1 := (first_pass o).2 in
  wf (set o) →
  (first_pass o).1 = None →
  formal s1 !! name = Some flag →
  name ∉ actual s1 →
  env (environ P) (prefix o +:+ name) = Some v →
  (Value_Set (Value_ flag) (if isBoolFlag (Value_ flag) then normalize v else v)).2 ≠ None →
  err (Parse range P options) ≠ None.
Proof.
  intros Hrange o s1 Hwf H1 Hflag Hunset Hv Hrej Hok.
  assert (Hfirst : first_pass o = (None, s1)).
  { subst s1. destruct (first_pass o); simpl in *; by subst. }
  destruct (second_pass range Hrange (environ P) o s1 Hwf Hfirst) as [_ Hsucc].
  destruct (Hsucc Hok) as [_ Hall].
  destruct (Hall name (if isBoolFlag (Value_ flag) then normalize v else v))
    as (fl & val & Hfl & Hval & _).
  { apply (elem_of_entries range Hrange _ _ _ Hwf Hfirst). by exists flag, v. }
  assert (fl = flag) as -> by congruence. by rewrite Hval in Hrej.
Qed.

(** C3 (amended). For an unset flag whose environment variable exists, the
    synthesized argument carries the value normalized as the specification
    says when the flag is boolean-style (case-insensitively true/yes/y/1
    become [true], false/no/n/0 become [false], any other string stays as
    it is) and the value verbatim otherwise; [Parse] fails when the flag's
    [Set] rejects that string, and when [Parse] succeeds the flag holds
    what [Set] made of it. *)
Theorem C3_boolean_normalization (P : Process) (options : list Option)
    (name : string) (flag : Flag) (v : string) :
  RangeOrder range →
  let o := configure P options in
  let s1 := (first_pass o).2 in
  let R := Parse range P options in
  wf (set o) →
  (first_pass o).1 = None →
  formal s1 !! name = Some flag →
  name ∉ actual s1 →
  env (environ P) (prefix o +:+ name) = Some v →
  (Strings.isASCII v = false → mapToLower v ∉ truthy ++ falsy) →
  let w := if isBoolFlag (Value_ flag) then spec_normalize v else v in
  mkArg name w ∈ synth (env_entries (prefix o) (environ P) (range (unset_of s1)))
  ∧ ((Value_Set (Value_ flag) w).2 ≠ None → err R ≠ None)
  ∧ (err R = None →
     formal (final R) !! name = Some (with_Value flag (Value_Set (Value_ flag) w).1)).
Proof.
  intros Hrange o s1 R Hwf H1 Hflag Hunset Hv Htable w.
  assert (Hw : w = if isBoolFlag (Value_ flag) then normalize v else v).
  { subst w. by rewrite normalize_spec. }
  assert (Hfirst : first_pass o = (None, s1)).
  { subst s1. destruct (first_pass o); simpl in *; by subst. }
  assert (Hin : (name, w) ∈ env_entries (prefix o) (environ P) (range (unset_of s1))).
  { apply (elem_of_entries range Hrange _ _ _ Hwf Hfirst). by exists flag, v. }
  split; [|split].
  - unfold synth. apply list_elem_of_fmap. by exists (name, w).
  - rewrite Hw.
    exact (rejected_value_fails P options name flag v Hrange Hwf H1 Hflag Hunset Hv).
  - intros Hok.
    destruct (second_pass range Hrange (environ P) o s1 Hwf Hfirst) as [_ Hsucc].
    destruct (Hsucc Hok) as [_ Hall].
    destruct (Hall name w Hin) as (fl & val & Hfl & Hval & Hfin).
    assert (fl = flag) as -> by congruence. by rewrite Hval.
Qed.

Lemma env_entries_agree (pfx : string) (E E' : Environ) (l : list (string * Flag)) :
  (∀ name, name ∈ l.*1 → E' !! spec_key pfx name = E !! spec_key pfx name) →
  env_entries pfx E' l = env_entries pfx E l.
Proof.
  intros Hagree. unfold env_entries.
  apply list_omap_ext, Forall_Forall2_diag, Forall_forall.
  intros [n f] Hin. unfold env_entry, env. cbn [fst snd].
  rewrite envKey_spec, (Hagree n); [done|].
  apply list_elem_of_fmap. by exists (n, f).
Qed.

(** C4. The key [env] computes for a flag is the specification's key; the
    keys [Parse] looks up are these keys for the entries of [unset], one
    lookup for each, and none when the first pass fails; and the outcome
    of [Parse] is the same in any environment that agrees on these keys. *)
Theorem C4_environment_key (P : Process) (options : list Option) (E' : Environ) :
  let o := configure P options in
  let s1 := (first_pass o).2 in
  (∀ name, name ∈ (range (unset_of s1)).*1 →
     E' !! spec_key (prefix o) name = environ P !! spec_key (prefix o) name) →
  (∀ name, envKey (prefix o +:+ name) = spec_key (prefix o) name)
  ∧ looked (Parse range P options)
    = match (first_pass o).1 with
      | Some _ => []
      | None => spec_key (prefix o) <$> (range (unset_of s1)).*1
      end
  ∧ Parse range (mkProcess (CommandLine P) (os_Args P) E') options
    = Parse range P options.
Proof.
  intros o s1 Hagree. split; [intros name; apply envKey_spec|].
  subst s1. destruct (first_pass o) as [[e|] s1] eqn:H1; simpl in *.
  - rewrite (Parse_first_failed P options e s1 H1). split; [done|].
    by apply Parse_first_failed.
  - unfold Parse. fold o. change (configure _ options) with o. simpl.
    rewrite !(parse_first_ok range _ o s1 H1). cbv zeta.
    rewrite (env_entries_agree _ _ _ _ Hagree).
    assert (Hkeys : env_keys (prefix o) (range (unset_of s1))
                    = spec_key (prefix o) <$> (range (unset_of s1)).*1).
    { unfold env_keys. rewrite <- list_fmap_compose. apply list_fmap_ext.
      intros i [n f] _. apply envKey_spec. }
    split; [|done].
    by destruct (env_entries (prefix o) (environ P) (range (unset_of s1))).
Qed.

(** C5 (amended). When the first pass succeeds and the second pass fails,
    [Parse] returns the second pass's error and leaves the flag set as that
    pass left it.  A flag set by the first pass keeps its first-pass value
    and an unset flag without an environment variable keeps its value.  The
    pass stopped at one entry of the synthesized list: the flags of the
    entries before it hold what [Set] made of their values, which it
    accepted; the flag of that entry holds what its [Set] left when it
    rejected the value (or, when [parseOne] could not read the name back,
    the flag is as it was and the error is the syntax error); the flags of
    the entries after it are as they were.  The engine's [intValue.Set]
    leaves 0 on a syntax error and its [boolValue.Set] leaves [false] on
    any error. *)
Theorem C5_second_pass_failure (P : Process) (options : list Option) (e : error) :
  RangeOrder range →
  let o := configure P options in
  let s1 := (first_pass o).2 in
  let entries := env_entries (prefix o) (environ P) (range (unset_of s1)) in
  let second := Flag.Parse s1 (synth entries ++ tail_of (Args s1)) in
  wf (set o) →
  (first_pass o).1 = None →
  entries ≠ [] →
  second.1 = Some e →
  err (Parse range P options) = Some e
  ∧ final (Parse range P options) = second.2
  ∧ (∀ name flag, formal s1 !! name = Some flag → name ∈ actual s1 →
       formal second.2 !! name = Some flag)
  ∧ (∀ name flag, formal s1 !! name = Some flag → name ∉ actual s1 →
       env (environ P) (prefix o +:+ name) = None →
       formal second.2 !! name = Some flag)
  ∧ (∃ before name flag v after,
       let w := if isBoolFlag (Value_ flag) then normalize v else v in
       entries = before ++ (name, w) :: after
       ∧ formal s1 !! name = Some flag
       ∧ (name ∉ actual s1)
       ∧ env (environ P) (prefix o +:+ name) = Some v
       ∧ (if valid_name name
          then ∃ se, (Value_Set (Value_ flag) w).2 = Some se
                 ∧ e = (if isBoolFlag (Value_ flag) then errInvalidBoolValue w name se
                        else errInvalidValue w name se)
                 ∧ formal second.2 !! name
                   = Some (with_Value flag (Value_Set (Value_ flag) w).1)
          else e = errBadSyntax (mkArg name w) ∧ formal second.2 !! name = Some flag)
       ∧ all_applied before s1 second.2
       ∧ ∀ m u, (m, u) ∈ after → formal second.2 !! m = formal s1 !! m)
  ∧ (∀ z u, (Value_Set (mkValue intValue z) u).2 = Some errParse →
       (Value_Set (mkValue intValue z) u).1 = mkValue intValue 0%Z)
  ∧ (∀ b u, (Value_Set (mkValue boolValue b) u).2 ≠ None →
       (Value_Set (mkValue boolValue b) u).1 = mkValue boolValue false).
Proof.
  intros Hrange o s1 entries second Hwf H1 Hne Hrun.
  assert (Hfirst : first_pass o = (None, s1)).
  { subst s1. destruct (first_pass o); simpl in *; by subst. }
  destruct (second_pass range Hrange (environ P) o s1 Hwf Hfirst) as [Htouch _].
  pose proof (second_pass_stop range Hrange (environ P) o s1 Hwf Hfirst e) as Hstop.
  assert (HR : Parse range P options
               = {| err := Some e; final := second.2;
                    looked := env_keys (prefix o) (range (unset_of s1)) |}).
  { unfold Parse. fold o. rewrite (parse_first_ok range _ o s1 Hfirst). cbv zeta.
    fold entries. destruct entries as [|en es] eqn:Hen; [done|].
    fold second. by rewrite Hrun. }
  unfold Parse in HR. fold o in HR. rewrite HR in Htouch, Hstop.
  simpl in Htouch, Hstop.
  unfold Parse. fold o. rewrite HR. simpl.
  split; [done|]. split; [done|].
  split; [|split; [|split; [|split]]].
  - intros name flag Hflag Hact. specialize (Htouch name). unfold touched in Htouch.
    rewrite Hflag in Htouch.
    destruct Htouch as [Hsame | (v & fl & Hin & _)]; [done|].
    apply (elem_of_entries range Hrange _ _ _ Hwf Hfirst) in Hin
      as (? & ? & _ & Hn & _). done.
  - intros name flag Hflag _ Hnone. specialize (Htouch name). unfold touched in Htouch.
    rewrite Hflag in Htouch.
    destruct Htouch as [Hsame | (v & fl & Hin & _)]; [done|].
    apply (elem_of_entries range Hrange _ _ _ Hwf Hfirst) in Hin
      as (? & ? & _ & _ & Hw & _). congruence.
  - destruct (Hstop eq_refl) as (before & n & w & after & Heq & Herr & Hat & Hbefore & Hafter).
    assert (Hin : (n, w) ∈ entries).
    { fold entries in Heq. rewrite Heq. apply elem_of_app. right. apply list_elem_of_here. }
    apply (elem_of_entries range Hrange _ _ _ Hwf Hfirst) in Hin
      as (flag & v & Hflag & Hunset & Hv & ->).
    exists before, n, flag, v, after. cbv zeta.
    split; [exact Heq|]. split; [exact Hflag|]. split; [exact Hunset|].
    split; [exact Hv|]. split; [|by split].
    unfold stopped_at in Hat. unfold entry_error in Herr. rewrite Hflag in Hat, Herr.
    destruct (valid_name n); simpl in Herr.
    + destruct ((Value_Set (Value_ flag)
                   (if isBoolFlag (Value_ flag) then normalize v else v)).2)
        as [se|] eqn:Hset; [|done].
      exists se. split; [done|]. split; [congruence | exact Hat].
    + split; [congruence | exact Hat].
  - apply intValue_Set_rejected.
  - apply boolValue_Set_rejected.
Qed.

(** C7 (amended). Whenever [Parse] succeeds, the positional arguments of the
    flag set are exactly those the first pass left.  After a first pass
    that succeeds: if no argument was synthesized from the environment,
    [Parse] returns success with the flag set as the first pass left it
    (there is no second pass); otherwise its result is that of
    [FlagSet.Parse] on the synthesized arguments followed, when there are
    positional arguments, by [--] and the positional arguments. *)
Theorem C7_positional_arguments (P : Process) (options : list Option) :
  RangeOrder range →
  let o := configure P options in
  let s1 := (first_pass o).2 in
  let R := Parse range P options in
  let entries := env_entries (prefix o) (environ P) (range (unset_of s1)) in
  let second :=
    Flag.Parse s1 (synth entries ++
                   (if bool_decide (0 < length (Args s1)) then "--" :: Args s1 else [])) in
  wf (set o) →
  (first_pass o).1 = None →
  (entries = [] → err R = None ∧ final R = s1)
  ∧ (entries ≠ [] → err R = second.1 ∧ final R = second.2)
  ∧ (err R = None → Args (final R) = Args s1).
Proof.
  intros Hrange o s1 R entries second Hwf H1.
  assert (Hfirst : first_pass o = (None, s1)).
  { subst s1. destruct (first_pass o); simpl in *; by subst. }
  assert (HR : R = parse range (environ P) o) by done.
  split; [|split].
  - intros Hnil. rewrite HR, (parse_first_ok range _ o s1 Hfirst). cbv zeta.
    fold entries. by rewrite Hnil.
  - intros Hcons. rewrite HR, (parse_first_ok range _ o s1 Hfirst). cbv zeta.
    fold entries. by destruct entries.
  - intros Hok.
    destruct (second_pass range Hrange (environ P) o s1 Hwf Hfirst) as [_ Hsucc].
    by destruct (Hsucc Hok) as [Hargs _].
Qed.

(** C8. After a successful [Parse] the registered names are unchanged, and
    every registered flag has the value of its one source: the value the
    first pass gave it if the argument list set it; otherwise what its
    [Set] made of its (normalized) environment value if the environment has
    its key; otherwise the value it had before the call. *)
Theorem C8_every_flag_resolved (P : Process) (options : list Option)
    (name : string) (flag : Flag) :
  RangeOrder range →
  let o := configure P options in
  let s1 := (first_pass o).2 in
  let R := Parse range P options in
  wf (set o) →
  err R = None →
  formal (set o) !! name = Some flag →
  dom (formal (final R)) = dom (formal (set o))
  ∧ is_Some (formal (final R) !! name)
  ∧ match source_of s1 (prefix o) (environ P) name with
    | FromArguments =>
        (∃ val, formal s1 !! name = Some (with_Value flag val))
        ∧ formal (final R) !! name = formal s1 !! name
    | FromEnvironment =>
        ∃ v val,
          env (environ P) (prefix o +:+ name) = Some v
          ∧ Value_Set (Value_ flag) (if isBoolFlag (Value_ flag) then normalize v else v)
            = (val, None)
          ∧ formal (final R) !! name = Some (with_Value flag val)
    | FromDefault => formal (final R) !! name = Some flag
    end.
Proof.
  intros Hrange o s1 R Hwf Hok Hflag.
  pose proof (Parse_ok_first_ok P options Hok) as Hfirst. fold o s1 in Hfirst.
  destruct (Parse_rel _ _ _ _ Hfirst) as [(Hdom1 & _ & _) _].
  assert (Hsrc : match source_of s1 (prefix o) (environ P) name with
    | FromArguments =>
        (∃ val, formal s1 !! name = Some (with_Value flag val))
        ∧ formal (final R) !! name = formal s1 !! name
    | FromEnvironment =>
        ∃ v val,
          env (environ P) (prefix o +:+ name) = Some v
          ∧ Value_Set (Value_ flag) (if isBoolFlag (Value_ flag) then normalize v else v)
            = (val, None)
          ∧ formal (final R) !! name = Some (with_Value flag val)
    | FromDefault => formal (final R) !! name = Some flag
    end).
  { unfold source_of. destruct (decide (name ∈ actual s1)) as [Hact | Hact].
    - split.
      + specialize (Hdom1 name). by rewrite Hflag in Hdom1.
      + by destruct (set_flag_kept P options name Hrange Hwf Hact) as (_ & _ & ?).
    - pose proof (unset_flag_resolved P options name flag Hrange Hwf Hok Hflag Hact)
        as Henv.
      cbv zeta in Henv. fold o R in Henv.
      destruct (env (environ P) (prefix o +:+ name)) as [v|]; [|exact Henv].
      destruct Henv as (val & Hval & Hfin). by exists v, val. }
  split; [|split; [|exact Hsrc]].
  - apply set_eq. intros n. rewrite !elem_of_dom.
    destruct (second_pass range Hrange (environ P) o s1 Hwf Hfirst) as [Htouch _].
    specialize (Hdom1 n).
    assert (Hs1 : is_Some (formal s1 !! n) ↔ is_Some (formal (set o) !! n)).
    { destruct (formal (set o) !! n) as [fl|].
      - destruct Hdom1 as [val ->]. split; eauto.
      - rewrite Hdom1. done. }
    rewrite <- Hs1. change (final R) with (final (parse range (environ P) o)).
    destruct (Htouch n) as [-> | (v & fl & _ & -> & ->)]; [done|]. split; eauto.
  - revert Hsrc. destruct (source_of s1 (prefix o) (environ P) name).
    + intros [[val Hval] ->]. rewrite Hval. eauto.
    + intros (v & val & _ & _ & ->). eauto.
    + intros ->. eauto.
Qed.

(** C9. An environment variable set to the empty string is present: for an
    unset flag with such a variable the argument [--name=] is synthesized,
    and [Parse] fails whenever the flag's [Set] rejects the empty string,
    as the [Set] of an int flag and of a bool flag do. *)
Theorem C9_empty_environment_value (P : Process) (options : list Option)
    (name : string) (flag : Flag) :
  RangeOrder range →
  let o := configure P options in
  let s1 := (first_pass o).2 in
  let R := Parse range P options in
  wf (set o) →
  (first_pass o).1 = None →
  formal s1 !! name = Some flag →
  name ∉ actual s1 →
  env (environ P) (prefix o +:+ name) = Some "" →
  ("--" +:+ name +:+ "=") ∈ synth (env_entries (prefix o) (environ P) (range (unset_of s1)))
  ∧ ((Value_Set (Value_ flag) "").2 ≠ None → err R ≠ None)
  ∧ (vtype (Value_ flag) = intValue ∨ vtype (Value_ flag) = boolValue → err R ≠ None).
Proof.
  intros Hrange o s1 R Hwf H1 Hflag Hunset Hv.
  assert (Hnorm : (if isBoolFlag (Value_ flag) then normalize "" else "") = "").
  { by destruct (isBoolFlag (Value_ flag)). }
  assert (Hfirst : first_pass o = (None, s1)).
  { subst s1. destruct (first_pass o); simpl in *; by subst. }
  assert (Hrej : (Value_Set (Value_ flag) "").2 ≠ None → err R ≠ None).
  { intros Hrej.
    apply (rejected_value_fails P options name flag "" Hrange Hwf H1 Hflag Hunset Hv).
    by rewrite Hnorm. }
  split; [|split; [exact Hrej|]].
  - unfold synth. apply list_elem_of_fmap. exists (name, ""). split.
    + reflexivity.
    + apply (elem_of_entries range Hrange _ _ _ Hwf Hfirst).
      exists flag, "". by rewrite Hnorm.
  - intros Hty. apply Hrej. unfold Value_Set.
    destruct (Value_ flag) as [ty st]. simpl in *.
    destruct Hty as [-> | ->]; simpl; done.
Qed.

(** C10. The map from flag names to environment keys is not injective:
    [a.b] and [a-b] have the key [A_B], and [ab] and [AB] the key [AB];
    with the flags [a.b] and [a-b] registered and unset, the one variable
    [A_B] gives both of them their value in one call of [Parse]. *)
Theorem C10_key_not_injective :
  ("a.b" ≠ "a-b" ∧ envKey "a.b" = "A_B" ∧ envKey "a-b" = "A_B")
  ∧ ("ab" ≠ "AB" ∧ envKey "ab" = "AB" ∧ envKey "AB" = "AB")
  ∧ let R := Parse map_to_list
               {| CommandLine := Tests.dotted_set; os_Args := [];
                  environ := {[ "A_B" := "v" ]} |} [] in
    err R = None
    ∧ Value_String <$> (Value_ <$> formal (final R) !! "a.b") = Some "v"
    ∧ Value_String <$> (Value_ <$> formal (final R) !! "a-b") = Some "v"
    ∧ looked R = ["A_B"; "A_B"].
Proof.
  split; [|split].
  - split; [done|]. split; reflexivity.
  - split; [done|]. split; reflexivity.
  - vm_compute. repeat split; reflexivity.
Qed.

End Claims.

(** * Further properties *)

Lemma FlagSet_eq (f g : FlagSet) :
  parsed f = parsed g → actual f = actual g → formal f = formal g → args f = args g →
  f = g.
Proof. destruct f, g. simpl. by intros -> -> -> ->. Qed.

Section Resolved.
Context `{UnicodeTables}.
Variable range : gmap string Flag → list (string * Flag).
Hypothesis Hrange : RangeOrder range.
Variables (E : Environ) (o : option_) (s1 : FlagSet).
Hypothesis Hwf : wf (set o).
Hypothesis Hfirst : Flag.Parse (set o) (args_ o) = (None, s1).
Hypothesis Hok : err (parse range E o) = None.

Lemma elem_of_entries_names (n : string) :
  n ∈ (env_entries (prefix o) E (range (unset_of s1))).*1 ↔
  is_Some (formal s1 !! n) ∧ (n ∉ actual s1) ∧ is_Some (env E (prefix o +:+ n)).
Proof using Hrange Hwf Hfirst.
  rewrite list_elem_of_fmap. split.
  - intros ([m v] & -> & Hin). simpl.
    apply (elem_of_entries range Hrange _ _ _ Hwf Hfirst) in Hin
      as (flag & w & Hfl & Hact & Hw & _). eauto.
  - intros ([flag Hfl] & Hact & [w Hw]).
    exists (n, if isBoolFlag (Value_ flag) then normalize w else w). split; [done|].
    apply (elem_of_entries range Hrange _ _ _ Hwf Hfirst). by exists flag, w.
Qed.

Lemma final_lookup (n : string) :
  formal (final (parse range E o)) !! n = resolved s1 (prefix o) E n.
Proof using Hrange Hwf Hfirst Hok.
  destruct (second_pass range Hrange E o s1 Hwf Hfirst) as [Htouch Hsucc].
  destruct (Hsucc Hok) as [_ Hall]. unfold resolved.
  assert (Hentry : ∀ v, (n, v) ∈ env_entries (prefix o) E (range (unset_of s1)) →
            ∃ flag w, formal s1 !! n = Some flag ∧ (n ∉ actual s1) ∧
                      env E (prefix o +:+ n) = Some w ∧
                      v = (if isBoolFlag (Value_ flag) then normalize w else w)).
  { intros v. apply (elem_of_entries range Hrange _ _ _ Hwf Hfirst). }
  destruct (formal s1 !! n) as [flag|] eqn:Hflag.
  - destruct (decide (n ∈ actual s1)) as [Hact | Hact].
    + destruct (Htouch n) as [-> | (v & fl & Hin & _)]; [done|].
      destruct (Hentry v Hin) as (? & ? & _ & ? & _). done.
    + destruct (env E (prefix o +:+ n)) as [w|] eqn:Hw.
      * destruct (Hall n (if isBoolFlag (Value_ flag) then normalize w else w))
          as (fl & val & Hfl & Hval & ->).
        { apply (elem_of_entries range Hrange _ _ _ Hwf Hfirst). by exists flag, w. }
        assert (fl = flag) as -> by congruence. by rewrite Hval.
      * destruct (Htouch n) as [-> | (v & fl & Hin & _)]; [done|].
        destruct (Hentry v Hin) as (? & ? & _ & _ & ? & _). congruence.
  - destruct (Htouch n) as [-> | (v & fl & Hin & _)]; [done|].
    destruct (Hentry v Hin) as (? & ? & ? & _). congruence.
Qed.

Lemma final_actual (n : string) :
  n ∈ actual (final (parse range E o)) ↔
  n ∈ actual s1 ∨ (is_Some (formal s1 !! n) ∧ is_Some (env E (prefix o +:+ n))).
Proof using Hrange Hwf Hfirst Hok.
  destruct (second_pass_outcome range Hrange E o s1 Hwf Hfirst) as (_ & Hact & _).
  rewrite (Hact Hok), elem_of_union, elem_of_list_to_set, elem_of_entries_names.
  destruct (decide (n ∈ actual s1)); naive_solver.
Qed.

End Resolved.

(** * Further properties of [Parse] *)

Section ParseProperties.
Context `{UnicodeTables}.

Lemma first_pass_ok (o : option_) :
  (first_pass o).1 = None → Flag.Parse (set o) (args_ o) = (None, (first_pass o).2).
Proof. unfold first_pass. destruct (Flag.Parse (set o) (args_ o)); simpl. by intros ->. Qed.

Lemma first_pass_failed (range : gmap string Flag → list (string * Flag))
    (E : Environ) (o : option_) (e : error) :
  (first_pass o).1 = Some e →
  parse range E o = {| err := Some e; final := (first_pass o).2; looked := [] |}.
Proof.
  unfold first_pass, parse. destruct (Flag.Parse (set o) (args_ o)); simpl. by intros ->.
Qed.

(** X1. [Parse] succeeds exactly when the first pass succeeds and every
    registered flag that the argument list did not set and whose key is in
    the environment has a name that [--name=value] can carry (not empty,
    not starting with [-]) and a [Set] that accepts the environment value
    (normalized for a boolean-style flag). *)
Theorem Parse_success_criterion (range : gmap string Flag → list (string * Flag))
    (P : Process) (options : list Option) :
  RangeOrder range →
  let o := configure P options in
  let s1 := (first_pass o).2 in
  wf (set o) →
  err (Parse range P options) = None ↔
  (first_pass o).1 = None ∧
  ∀ name flag v,
    formal s1 !! name = Some flag → name ∉ actual s1 →
    env (environ P) (prefix o +:+ name) = Some v →
    valid_name name = true
    ∧ (Value_Set (Value_ flag) (if isBoolFlag (Value_ flag) then normalize v else v)).2 = None.
Proof.
  intros Hrange o s1 Hwf. unfold Parse. fold o. split.
  - intros Hok.
    assert (H1 : (first_pass o).1 = None).
    { destruct ((first_pass o).1) as [e|] eqn:H1; [|done].
      by rewrite (first_pass_failed range _ o e H1) in Hok. }
    split; [exact H1|]. intros name flag v Hflag Hunset Hv.
    pose proof (first_pass_ok o H1) as Hfirst. fold s1 in Hfirst.
    destruct (second_pass_outcome range Hrange (environ P) o s1 Hwf Hfirst) as (_ & _ & Herr).
    rewrite Hok in Herr.
    assert (Hin : (name, if isBoolFlag (Value_ flag) then normalize v else v)
                  ∈ env_entries (prefix o) (environ P) (range (unset_of s1))).
    { apply (elem_of_entries range Hrange _ _ _ Hwf Hfirst). by exists flag, v. }
    specialize (Herr _ _ Hin). unfold entry_error in Herr. rewrite Hflag in Herr.
    destruct (valid_name name); simpl in Herr; [|done]. split; [done|].
    by destruct ((Value_Set (Value_ flag)
                    (if isBoolFlag (Value_ flag) then normalize v else v)).2).
  - intros [H1 Hall].
    pose proof (first_pass_ok o H1) as Hfirst. fold s1 in Hfirst.
    destruct (second_pass_outcome range Hrange (environ P) o s1 Hwf Hfirst) as (_ & _ & Herr).
    destruct (err (parse range (environ P) o)) as [e|]; [|done].
    destruct Herr as (n & w & Hin & Herr).
    apply (elem_of_entries range Hrange _ _ _ Hwf Hfirst) in Hin
      as (flag & v & Hflag & Hunset & Hv & ->).
    destruct (Hall n flag v Hflag Hunset Hv) as [Hvalid Hset].
    unfold entry_error in Herr. by rewrite Hvalid, Hflag, Hset in Herr.
Qed.

(** X2. The error of a second pass that fails is the engine's error for one
    synthesized argument: bad flag syntax when the flag's name is empty or
    starts with [-], and otherwise the error its [Set] returned for the
    (normalized) environment value, reported as an invalid boolean value for
    a boolean-style flag and as an invalid value for any other flag.  It is
    never [ErrHelp], an undefined flag or a missing argument. *)
Theorem Parse_environment_error (range : gmap string Flag → list (string * Flag))
    (P : Process) (options : list Option) (e : error) :
  RangeOrder range →
  let o := configure P options in
  let s1 := (first_pass o).2 in
  wf (set o) →
  (first_pass o).1 = None →
  err (Parse range P options) = Some e →
  ∃ name flag v,
    formal s1 !! name = Some flag ∧ (name ∉ actual s1)
    ∧ env (environ P) (prefix o +:+ name) = Some v
    ∧ let w := if isBoolFlag (Value_ flag) then normalize v else v in
      if valid_name name then
        ∃ se, (Value_Set (Value_ flag) w).2 = Some se
              ∧ e = (if isBoolFlag (Value_ flag) then errInvalidBoolValue w name se
                     else errInvalidValue w name se)
      else e = errBadSyntax ("--" +:+ name +:+ "=" +:+ w).
Proof.
  intros Hrange o s1 Hwf H1 Herr. unfold Parse in Herr. fold o in Herr.
  pose proof (first_pass_ok o H1) as Hfirst. fold s1 in Hfirst.
  destruct (second_pass_outcome range Hrange (environ P) o s1 Hwf Hfirst) as (_ & _ & Hout).
  rewrite Herr in Hout. destruct Hout as (n & w & Hin & Hen).
  apply (elem_of_entries range Hrange _ _ _ Hwf Hfirst) in Hin
    as (flag & v & Hflag & Hunset & Hv & ->).
  exists n, flag, v. split; [done|]. split; [done|]. split; [done|]. cbv zeta.
  unfold entry_error in Hen. rewrite Hflag in Hen.
  destruct (valid_name n); simpl in Hen.
  - destruct ((Value_Set (Value_ flag)
                 (if isBoolFlag (Value_ flag) then normalize v else v)).2) as [se|];
      [|done].
    exists se. split; [done|]. by injection Hen as <-.
  - by injection Hen as <-.
Qed.

Lemma looked_first_ok (range : gmap string Flag → list (string * Flag))
    (E : Environ) (o : option_) (s1 : FlagSet) :
  Flag.Parse (set o) (args_ o) = (None, s1) →
  looked (parse range E o) = env_keys (prefix o) (range (unset_of s1)).
Proof.
  intros Hfirst. rewrite (parse_first_ok range E o s1 Hfirst). cbv zeta.
  by destruct (env_entries (prefix o) E (range (unset_of s1))).
Qed.

(** X3. The order in which Go visits the map [unset] does not matter to a
    [Parse] that succeeds: if it succeeds for one order it succeeds for
    every order, leaves the same flag set, and looks up the same keys. *)
Theorem Parse_order_independent (range1 range2 : gmap string Flag → list (string * Flag))
    (P : Process) (options : list Option) :
  RangeOrder range1 →
  RangeOrder range2 →
  wf (set (configure P options)) →
  err (Parse range1 P options) = None →
  err (Parse range2 P options) = None
  ∧ final (Parse range2 P options) = final (Parse range1 P options)
  ∧ looked (Parse range2 P options) ≡ₚ looked (Parse range1 P options).
Proof.
  intros Hr1 Hr2 Hwf Hok1. unfold Parse in *.
  set (o := configure P options) in *. set (E := environ P) in *.
  assert (H1 : (first_pass o).1 = None).
  { destruct ((first_pass o).1) as [e|] eqn:H1; [|done].
    by rewrite (first_pass_failed range1 _ o e H1) in Hok1. }
  pose proof (first_pass_ok o H1) as Hfirst. set (s1 := (first_pass o).2) in *.
  assert (Hok2 : err (parse range2 E o) = None).
  { destruct (second_pass_outcome range1 Hr1 E o s1 Hwf Hfirst) as (_ & _ & Hout1).
    destruct (second_pass_outcome range2 Hr2 E o s1 Hwf Hfirst) as (_ & _ & Hout2).
    rewrite Hok1 in Hout1. destruct (err (parse range2 E o)) as [e|]; [|done].
    destruct Hout2 as (n & w & Hin & Hen).
    apply (elem_of_entries range2 Hr2 _ _ _ Hwf Hfirst) in Hin.
    apply (elem_of_entries range1 Hr1 _ _ _ Hwf Hfirst) in Hin.
    rewrite (Hout1 n w Hin) in Hen. discriminate Hen. }
  split; [exact Hok2|]. split.
  - apply FlagSet_eq.
    + destruct (second_pass_outcome range1 Hr1 E o s1 Hwf Hfirst) as (-> & _).
      by destruct (second_pass_outcome range2 Hr2 E o s1 Hwf Hfirst) as (-> & _).
    + apply set_eq. intros n.
      by rewrite (final_actual range1 Hr1 E o s1 Hwf Hfirst Hok1),
        (final_actual range2 Hr2 E o s1 Hwf Hfirst Hok2).
    + apply map_eq. intros n.
      by rewrite (final_lookup range1 Hr1 E o s1 Hwf Hfirst Hok1),
        (final_lookup range2 Hr2 E o s1 Hwf Hfirst Hok2).
    + destruct (second_pass range1 Hr1 E o s1 Hwf Hfirst) as [_ Hs1].
      destruct (second_pass range2 Hr2 E o s1 Hwf Hfirst) as [_ Hs2].
      destruct (Hs1 Hok1) as [Ha1 _]. destruct (Hs2 Hok2) as [Ha2 _].
      unfold Args in *. congruence.
  - rewrite !(looked_first_ok _ E o s1 Hfirst). unfold env_keys.
    by rewrite (Hr1 (unset_of s1)), (Hr2 (unset_of s1)).
Qed.

(** X4. Whatever [Parse] returns, it leaves the flag set marked as parsed,
    with the same registered names, and of a registered flag it changes
    the value only; a flag that was marked as set stays marked. *)
Theorem Parse_keeps_registration (range : gmap string Flag → list (string * Flag))
    (P : Process) (options : list Option) (name : string) :
  let o := configure P options in
  let R := Parse range P options in
  parsed (final R) = true
  ∧ actual (set o) ⊆ actual (final R)
  ∧ match formal (set o) !! name with
    | Some flag => ∃ val, formal (final R) !! name = Some (with_Value flag val)
    | None => formal (final R) !! name = None
    end.
Proof.
  intros o R. subst R. unfold Parse. fold o.
  destruct (first_pass o) as [[e|] s1] eqn:H1.
  - rewrite (first_pass_failed range _ o e); [|by rewrite H1]. rewrite H1. simpl.
    destruct (Parse_rel _ _ _ _ H1) as [(Hdom & Hact & _) _].
    split; [by apply (Parse_args _ _ _ _ H1)|]. split; [exact Hact | apply Hdom].
  - unfold first_pass in H1. rewrite (parse_first_ok range _ o s1 H1). cbv zeta.
    destruct (Parse_rel _ _ _ _ H1) as [Hrel1 _].
    destruct (env_entries (prefix o) (environ P) (range (unset_of s1))) as [|en es].
    + cbv beta iota. cbn [final]. destruct Hrel1 as (Hdom & Hact & _).
      split; [by apply (Parse_args _ _ _ _ H1)|]. split; [exact Hact | apply Hdom].
    + cbv beta iota. cbn [final].
      destruct (Flag.Parse s1 (synth (en :: es) ++ tail_of (Args s1))) as [e2 s2] eqn:H2.
      cbn [snd].
      destruct (Parse_rel _ _ _ _ H2) as [Hrel2 _].
      destruct (pass_rel_trans _ _ _ _ Hrel1 Hrel2) as (Hdom & Hact & _).
      split; [by apply (Parse_args _ _ _ _ H2)|]. split; [exact Hact | apply Hdom].
Qed.

(** X5. After a successful [Parse] the flags marked as set (those that
    [Visit] visits) are the flags the argument list set together with the
    registered flags whose key the environment has. *)
Theorem Parse_marks_environment_flags (range : gmap string Flag → list (string * Flag))
    (P : Process) (options : list Option) (name : string) :
  RangeOrder range →
  let o := configure P options in
  let s1 := (first_pass o).2 in
  wf (set o) →
  err (Parse range P options) = None →
  name ∈ actual (final (Parse range P options)) ↔
  name ∈ actual s1
  ∨ (is_Some (formal s1 !! name) ∧ is_Some (env (environ P) (prefix o +:+ name))).
Proof.
  intros Hrange o s1 Hwf Hok. unfold Parse in *. fold o in Hok |- *.
  assert (H1 : (first_pass o).1 = None).
  { destruct ((first_pass o).1) as [e|] eqn:H1; [|done].
    by rewrite (first_pass_failed range _ o e H1) in Hok. }
  apply (final_actual range Hrange _ o s1 Hwf (first_pass_ok o H1) Hok).
Qed.

Lemma parse_wf (range : gmap string Flag → list (string * Flag))
    (E : Environ) (o : option_) :
  wf (set o) → wf (final (parse range E o)).
Proof.
  intros Hwf. destruct (first_pass o) as [[e|] s1] eqn:H1.
  - rewrite (first_pass_failed range E o e); [|by rewrite H1]. rewrite H1. simpl.
    by apply (Parse_rel _ _ _ _ H1).
  - unfold first_pass in H1. rewrite (parse_first_ok range E o s1 H1). cbv zeta.
    assert (Hwf1 : wf s1) by (by apply (Parse_rel _ _ _ _ H1)).
    destruct (env_entries (prefix o) E (range (unset_of s1))) as [|en es];
      cbv beta iota; cbn [final]; [done|].
    destruct (Flag.Parse s1 (synth (en :: es) ++ tail_of (Args s1))) as [e2 s2] eqn:H2.
    cbn [snd]. by apply (Parse_rel _ _ _ _ H2).
Qed.

Lemma resolved_is_Some (s1 : FlagSet) (pfx : string) (E : Environ) (n : string) :
  is_Some (resolved s1 pfx E n) → is_Some (formal s1 !! n).
Proof. unfold resolved. destruct (formal s1 !! n); [eauto | by intros [? ?]]. Qed.

(** X6. After a successful [Parse], a further [Parse] of the same flag set
    with the same prefix and environment applies no environment value: it
    returns what [FlagSet.Parse] alone returns on its argument list, and
    leaves the flag set as that pass leaves it. *)
Theorem Parse_again (range range' : gmap string Flag → list (string * Flag))
    (P : Process) (options : list Option) (a : list string) :
  RangeOrder range →
  RangeOrder range' →
  let o := configure P options in
  let R := Parse range P options in
  let again := Parse range' P [FlagSet_ (final R); Args_ a; Prefix (prefix o)] in
  wf (set o) →
  err R = None →
  err again = (Flag.Parse (final R) a).1 ∧ final again = (Flag.Parse (final R) a).2.
Proof.
  intros Hrange Hrange' o R again Hwf Hok. subst again R. unfold Parse in *.
  fold o in Hok |- *. set (E := environ P) in *.
  set (R := parse range E o) in *.
  change (configure P [FlagSet_ (final R); Args_ a; Prefix (prefix o)])
    with {| set := final R; args_ := a; prefix := prefix o |}.
  set (o2 := {| set := final R; args_ := a; prefix := prefix o |}).
  assert (H1 : (first_pass o).1 = None).
  { destruct ((first_pass o).1) as [e|] eqn:H1; [|done].
    subst R. by rewrite (first_pass_failed range _ o e H1) in Hok. }
  pose proof (first_pass_ok o H1) as Hfirst. set (s1 := (first_pass o).2) in *.
  assert (Hwf2 : wf (set o2)) by (by apply parse_wf).
  destruct (Flag.Parse (final R) a) as [[e|] s] eqn:H2.
  - rewrite (first_pass_failed range' E o2 e); [|unfold first_pass; simpl; by rewrite H2].
    unfold first_pass. simpl. by rewrite H2.
  - change (Flag.Parse (set o2) (args_ o2) = (None, s)) in H2.
    rewrite (parse_first_ok range' E o2 s H2). cbv zeta.
    destruct (env_entries (prefix o2) E (range' (unset_of s))) as [|[n v] es] eqn:Hen;
      [done|]. exfalso.
    assert (Hin : (n, v) ∈ env_entries (prefix o2) E (range' (unset_of s))).
    { rewrite Hen. apply list_elem_of_here. }
    apply (elem_of_entries range' Hrange' _ _ _ Hwf2 H2) in Hin
      as (flag & w & Hflag & Hunset & Hw & _).
    destruct (Parse_rel _ _ _ _ H2) as [(Hdom & Hact & _) _].
    apply Hunset, Hact. simpl.
    apply (final_actual range Hrange E o s1 Hwf Hfirst Hok). right.
    split; [|simpl in Hw; rewrite Hw; eauto].
    apply (resolved_is_Some s1 (prefix o) E).
    rewrite <- (final_lookup range Hrange E o s1 Hwf Hfirst Hok).
    specialize (Hdom n). simpl in Hdom. fold R.
    destruct (formal (final R) !! n); [eauto | congruence].
Qed.

(** X7. When no registered flag has its key in the environment, [Parse]
    returns what [FlagSet.Parse] returns on the argument list and leaves the
    flag set as that one pass leaves it. *)
Theorem Parse_without_environment (range : gmap string Flag → list (string * Flag))
    (P : Process) (options : list Option) :
  RangeOrder range →
  let o := configure P options in
  wf (set o) →
  (∀ name, is_Some (formal (set o) !! name) →
           env (environ P) (prefix o +:+ name) = None) →
  err (Parse range P options) = (first_pass o).1
  ∧ final (Parse range P options) = (first_pass o).2.
Proof.
  intros Hrange o Hwf Hnone. unfold Parse. fold o.
  destruct ((first_pass o).1) as [e|] eqn:H1.
  - by rewrite (first_pass_failed range _ o e H1).
  - pose proof (first_pass_ok o H1) as Hfirst.
    rewrite (parse_first_ok range _ o _ Hfirst). cbv zeta.
    destruct (env_entries (prefix o) (environ P) (range (unset_of (first_pass o).2)))
      as [|[n v] es] eqn:Hen; [done|]. exfalso.
    assert (Hin : (n, v) ∈ env_entries (prefix o) (environ P)
                             (range (unset_of (first_pass o).2))).
    { rewrite Hen. apply list_elem_of_here. }
    apply (elem_of_entries range Hrange _ _ _ Hwf Hfirst) in Hin
      as (flag & w & Hflag & _ & Hw & _).
    destruct (Parse_rel _ _ _ _ Hfirst) as [(Hdom & _) _]. specialize (Hdom n).
    rewrite Hnone in Hw; [done|].
    destruct (formal (set o) !! n); [eauto | congruence].
Qed.

(** X8. After a successful [Parse] the positional arguments [Args()] are a
    suffix of the argument list that [Parse] was given. *)
Theorem Parse_args_suffix (range : gmap string Flag → list (string * Flag))
    (P : Process) (options : list Option) :
  RangeOrder range →
  let o := configure P options in
  wf (set o) →
  err (Parse range P options) = None →
  Args (final (Parse range P options)) `suffix_of` args_ o.
Proof.
  intros Hrange o Hwf Hok. unfold Parse in *. fold o in Hok |- *.
  assert (H1 : (first_pass o).1 = None).
  { destruct ((first_pass o).1) as [e|] eqn:H1; [|done].
    by rewrite (first_pass_failed range _ o e H1) in Hok. }
  pose proof (first_pass_ok o H1) as Hfirst.
  destruct (second_pass range Hrange (environ P) o _ Hwf Hfirst) as [_ Hsucc].
  destruct (Hsucc Hok) as [-> _]. by apply (Parse_args _ _ _ _ Hfirst).
Qed.

(** X9. [Parse] looks up one environment key for each registered flag that
    the first pass left unset, and none when the first pass fails: never
    more keys than there are registered flags. *)
Theorem Parse_lookup_count (range : gmap string Flag → list (string * Flag))
    (P : Process) (options : list Option) :
  RangeOrder range →
  let o := configure P options in
  let s1 := (first_pass o).2 in
  wf (set o) →
  length (looked (Parse range P options))
  = match (first_pass o).1 with
    | Some _ => 0
    | None => size (dom (formal (set o)) ∖ actual s1)
    end
  ∧ (length (looked (Parse range P options)) ≤ size (formal (set o)))%nat.
Proof.
  intros Hrange o s1 Hwf. unfold Parse. fold o.
  assert (Hle : (size (dom (formal (set o)) ∖ actual s1) ≤ size (formal (set o)))%nat).
  { rewrite <- size_dom. apply subseteq_size. set_solver. }
  destruct ((first_pass o).1) as [e|] eqn:H1.
  - rewrite (first_pass_failed range _ o e H1). simpl. split; [done | lia].
  - pose proof (first_pass_ok o H1) as Hfirst. fold s1 in Hfirst.
    rewrite (looked_first_ok range _ o s1 Hfirst). unfold env_keys.
    rewrite length_fmap, (Hrange (unset_of s1)), length_map_to_list.
    assert (Hdom : dom (unset_of s1) = dom (formal (set o)) ∖ actual s1).
    { apply set_eq. intros n. rewrite elem_of_difference, !elem_of_dom.
      rewrite (unset_of_lookup s1 n) by (by apply (Parse_rel _ _ _ _ Hfirst)).
      destruct (Parse_rel _ _ _ _ Hfirst) as [(Hd & _) _]. specialize (Hd n).
      assert (Hs : is_Some (formal s1 !! n) ↔ is_Some (formal (set o) !! n)).
      { destruct (formal (set o) !! n).
        - destruct Hd as [val ->]. split; eauto.
        - by rewrite Hd. }
      destruct (decide (n ∈ actual s1)) as [Hact | Hact].
      - split; [by intros [? ?] | by intros [_ ?]].
      - rewrite Hs. split; [by intros ? | by intros [? _]]. }
    rewrite <- size_dom, Hdom. split; [done | exact Hle].
Qed.

End ParseProperties.

(** * The environment key *)

Lemma contains_map_bytes (f : ascii → ascii) (c : ascii) (s : string) :
  (∀ b, Ascii.eqb (f b) c = false) →
  Strings.contains_byte c (Strings.map_bytes f s) = false.
Proof. intros Hf. induction s as [|b s IH]; simpl; [done|]. by rewrite Hf, IH. Qed.

Lemma envKey_clean `{UnicodeTables} (name : string) :
  Strings.contains_byte "." (envKey name) = false
  ∧ Strings.contains_byte "-" (envKey name) = false.
Proof.
  unfold envKey, Strings.Replace. rewrite map_bytes_compose. split.
  - apply contains_map_bytes. intros b.
    destruct (Ascii.eqb b ".") eqn:Hdot; simpl; [done|].
    destruct (Ascii.eqb b "-") eqn:Hdash; [done | exact Hdot].
  - apply contains_map_bytes. intros b.
    destruct (Ascii.eqb b ".") eqn:Hdot; simpl; [done|].
    destruct (Ascii.eqb b "-") eqn:Hdash; [done | exact Hdash].
Qed.

(** X10. The key [env] looks up never contains [.] or [-], whatever the
    name is. *)
Theorem envKey_no_dot_no_dash `{UnicodeTables} (name : string) :
  Strings.contains_byte "." (envKey name) = false
  ∧ Strings.contains_byte "-" (envKey name) = false.
Proof. apply envKey_clean. Qed.

Lemma envKey_ascii `{UnicodeTables} (name : string) :
  Strings.isASCII name = true → envKey name = Strings.map_bytes key_of_byte name.
Proof.
  intros Hascii. unfold envKey, Strings.ToUpper, Strings.Replace. rewrite Hascii.
  rewrite !map_bytes_compose. reflexivity.
Qed.

Lemma key_of_byte_spec (c : ascii) :
  Strings.byte_lt c 128 = true →
  key_byte (key_of_byte c) = true
  ∧ Strings.byte_lt (key_of_byte c) 128 = true
  ∧ key_of_byte (key_of_byte c) = key_of_byte c.
Proof.
  destruct c as [[] [] [] [] [] [] [] []]; intros Hc; try discriminate Hc;
    vm_compute; done.
Qed.

Lemma map_bytes_length (f : ascii → ascii) (s : string) :
  String.length (Strings.map_bytes f s) = String.length s.
Proof. induction s as [|c s IH]; simpl; [done|]. by rewrite IH. Qed.

Lemma map_bytes_app (f : ascii → ascii) (s t : string) :
  Strings.map_bytes f (s +:+ t) = Strings.map_bytes f s +:+ Strings.map_bytes f t.
Proof. induction s as [|c s IH]; simpl; [done|]. by rewrite IH. Qed.

Lemma isASCII_app (s t : string) :
  Strings.isASCII (s +:+ t) = Strings.isASCII s && Strings.isASCII t.
Proof. induction s as [|c s IH]; simpl; [done|]. by rewrite IH, andb_assoc. Qed.

(** X11. For a name of ASCII bytes the key has the length of the name, has
    no lower-case letter, no [.] and no [-], and is its own key. *)
Theorem envKey_ascii_normal_form `{UnicodeTables} (name : string) :
  Strings.isASCII name = true →
  String.length (envKey name) = String.length name
  ∧ all_bytes key_byte (envKey name) = true
  ∧ Strings.isASCII (envKey name) = true
  ∧ envKey (envKey name) = envKey name.
Proof.
  intros Hascii.
  assert (Hbytes : all_bytes key_byte (Strings.map_bytes key_of_byte name) = true
                   ∧ Strings.isASCII (Strings.map_bytes key_of_byte name) = true
                   ∧ Strings.map_bytes key_of_byte (Strings.map_bytes key_of_byte name)
                     = Strings.map_bytes key_of_byte name).
  { induction name as [|c name IH]; simpl; [done|].
    simpl in Hascii. apply andb_true_iff in Hascii as [Hc Hascii].
    destruct (key_of_byte_spec c Hc) as (-> & -> & ->).
    destruct (IH Hascii) as (-> & -> & ->). done. }
  destruct Hbytes as (Hkey & Hasc & Hidem).
  rewrite (envKey_ascii name Hascii).
  split; [apply map_bytes_length|]. split; [exact Hkey|]. split; [exact Hasc|].
  by rewrite (envKey_ascii _ Hasc).
Qed.

(** X12. For a prefix and a name of ASCII bytes, the key of the prefixed
    name is the key of the prefix followed by the key of the name: the
    prefix is upper-cased and has its [.] and [-] replaced like the name. *)
Theorem envKey_prefix `{UnicodeTables} (pfx name : string) :
  Strings.isASCII pfx = true →
  Strings.isASCII name = true →
  envKey (pfx +:+ name) = envKey pfx +:+ envKey name.
Proof.
  intros Hp Hn. rewrite !envKey_ascii; [apply map_bytes_app | done | done |].
  by rewrite isASCII_app, Hp, Hn.
Qed.

(** * The boolean words *)

(** X13. The normalization of [Parse] yields [true], [false] or its
    argument, and normalizing twice is normalizing once. *)
Theorem normalize_idempotent `{UnicodeTables} (v : string) :
  (normalize v = "true" ∨ normalize v = "false" ∨ normalize v = v)
  ∧ normalize (normalize v) = normalize v.
Proof.
  assert (Hcases : normalize v = "true" ∨ normalize v = "false" ∨ normalize v = v).
  { unfold normalize.
    destruct (bool_decide (Strings.ToLower v ∈ ["true"; "yes"; "y"; "1"])); [by left|].
    destruct (bool_decide (Strings.ToLower v ∈ ["false"; "no"; "n"; "0"]));
      [right; by left | right; by right]. }
  split; [exact Hcases|].
  destruct Hcases as [-> | [-> | Hv]]; [reflexivity | reflexivity |].
  rewrite Hv. exact Hv.
Qed.

(** X14. What a bool flag of package flag makes of an environment value: it
    becomes true for true, yes, y and 1 in any letter case and for [t] and
    [T], false for false, no, n and 0 in any letter case and for [f] and
    [F], and every other value is rejected with a parse error. *)
Theorem bool_environment_values `{UnicodeTables} (v : string) (st : bool) :
  (Strings.isASCII v = false → mapToLower v ∉ truthy ++ falsy) →
  Value_Set (mkValue boolValue st)
    (if isBoolFlag (mkValue boolValue st) then normalize v else v)
  = if existsb (fold_eq v) truthy || bool_decide (v ∈ ["t"; "T"])
    then (mkValue boolValue true, None)
    else if existsb (fold_eq v) falsy || bool_decide (v ∈ ["f"; "F"])
         then (mkValue boolValue false, None)
         else (mkValue boolValue false, Some errParse).
Proof.
  intros Htable. change (isBoolFlag (mkValue boolValue st)) with true. cbv iota.
  rewrite (normalize_spec v Htable). unfold spec_normalize.
  destruct (existsb (fold_eq v) truthy) eqn:Ht; [reflexivity|].
  destruct (existsb (fold_eq v) falsy) eqn:Hf.
  { simpl. destruct (bool_decide (v ∈ ["t"; "T"])) eqn:Hin; [|reflexivity].
    apply bool_decide_eq_true in Hin.
    repeat (apply elem_of_cons in Hin as [-> | Hin]; [discriminate Hf|]).
    by apply elem_of_nil in Hin. }
  simpl. unfold Value_Set. simpl. unfold Strconv.ParseBool.
  destruct (bool_decide (v ∈ ["1"; "t"; "T"; "true"; "TRUE"; "True"])) eqn:H1.
  { apply bool_decide_eq_true in H1.
    repeat (apply elem_of_cons in H1 as [-> | H1];
            [first [discriminate Ht | reflexivity]|]).
    by apply elem_of_nil in H1. }
  apply bool_decide_eq_false in H1.
  rewrite (bool_decide_eq_false_2 (v ∈ ["t"; "T"])).
  2:{ intros Hin. apply H1. set_solver. }
  destruct (bool_decide (v ∈ ["0"; "f"; "F"; "false"; "FALSE"; "False"])) eqn:H0.
  { apply bool_decide_eq_true in H0.
    repeat (apply elem_of_cons in H0 as [-> | H0];
            [first [discriminate Hf | reflexivity]|]).
    by apply elem_of_nil in H0. }
  apply bool_decide_eq_false in H0.
  rewrite (bool_decide_eq_false_2 (v ∈ ["f"; "F"])); [reflexivity|].
  intros Hin. apply H0. set_solver.
Qed.

(** * The options *)

(** X15. [Parse] uses, for each of the flag set, the argument list and the
    prefix, the last option given for it, and the default
    ([flag.CommandLine], [os.Args[1:]], the empty prefix) when there is
    none. *)
Theorem configure_last_wins (P : Process) (l : list OptionSpec) :
  configure P (to_Option <$> l)
  = {| set := default (CommandLine P) (last (flag_sets l));
       args_ := default (os_Args P) (last (argument_lists l));
       prefix := default EmptyString (last (prefixes l)) |}.
Proof.
  induction l as [|x l IH] using rev_ind; [reflexivity|].
  unfold configure in *. rewrite fmap_app, foldl_app, IH.
  unfold flag_sets, argument_lists, prefixes. rewrite !omap_app.
  destruct x; simpl; rewrite ?app_nil_r, ?last_snoc; reflexivity.
Qed.

(** * Environment variables that [Parse] cannot reach *)

Lemma parse_env_agree `{UnicodeTables} (range : gmap string Flag → list (string * Flag))
    (E E' : Environ) (o : option_) :
  (∀ name, E' !! envKey (prefix o +:+ name) = E !! envKey (prefix o +:+ name)) →
  parse range E' o = parse range E o.
Proof.
  intros Hagree. destruct ((first_pass o).1) as [e|] eqn:H1.
  - by rewrite !(first_pass_failed range _ o e H1).
  - pose proof (first_pass_ok o H1) as Hfirst.
    rewrite !(parse_first_ok range _ o _ Hfirst). cbv zeta.
    rewrite (env_entries_agree (prefix o) E E'); [done|].
    intros name _. rewrite <- !envKey_spec. apply Hagree.
Qed.

(** X16. An environment variable whose name contains [.] or [-] is never
    read: [Parse] has the same outcome in two environments that differ only
    in such variables. *)
Theorem Parse_ignores_dotted_variables `{UnicodeTables}
    (range : gmap string Flag → list (string * Flag))
    (P : Process) (options : list Option) (E' : Environ) :
  (∀ key, Strings.contains_byte "." key = false →
          Strings.contains_byte "-" key = false →
          E' !! key = environ P !! key) →
  Parse range (mkProcess (CommandLine P) (os_Args P) E') options = Parse range P options.
Proof.
  intros Hagree. unfold Parse. simpl.
  change (configure (mkProcess (CommandLine P) (os_Args P) E') options)
    with (configure P options).
  apply parse_env_agree. intros name.
  destruct (envKey_clean (prefix (configure P options) +:+ name)) as [Hdot Hdash].
  by apply Hagree.
Qed.

(** * The helpers of the test suite *)

Lemma findEq_None (s : string) :
  findEq s = None ↔ Strings.contains_byte "=" s = false.
Proof.
  induction s as [|c s IH]; simpl; [done|].
  destruct (Ascii.eqb c "="); simpl; [done|].
  rewrite <- IH. destruct (findEq s) as [[a b]|]; done.
Qed.

Lemma SplitN_eq_entry (k v : string) :
  Strings.contains_byte "=" k = false → SplitN_eq (k +:+ "=" +:+ v) = [k; v].
Proof.
  intros Hk. unfold SplitN_eq.
  destruct (findEq_app k v) as (a & b & -> & Hab). by destruct (Hab Hk) as [-> ->].
Qed.

(** X17. [setEnv] panics exactly when one of its entries has no [=]. *)
Theorem setEnv_panics (env : list string) (E : Environ) :
  setEnv env E = None ↔ ∃ s, s ∈ env ∧ Strings.contains_byte "=" s = false.
Proof.
  revert E. induction env as [|s env IH]; intros E; simpl.
  - split; [done|]. intros (s & Hin & _). by apply elem_of_nil in Hin.
  - unfold SplitN_eq. destruct (findEq s) as [[a b]|] eqn:Hs; simpl.
    + rewrite IH. split.
      * intros (t & Hin & Ht). exists t. split; [by apply list_elem_of_further | done].
      * intros (t & Hin & Ht). apply elem_of_cons in Hin as [-> | Hin]; [|eauto].
        apply findEq_None in Ht. congruence.
    + split; [|done]. intros _. exists s. split; [apply list_elem_of_here|].
      by apply findEq_None.
Qed.

(** X18. [setEnv] splits an entry at its first [=] and the last entry for
    a key wins: after a call that ends with [key=value], for a key and a
    value that [os.Setenv] accepts, the variable [key] holds [value], which
    may itself contain [=]. *)
Theorem setEnv_last_wins (env : list string) (key value : string) (E E' : Environ) :
  Os.valid_key key = true →
  Os.valid_value value = true →
  setEnv (env ++ [key +:+ "=" +:+ value]) E = Some E' →
  E' !! key = Some value.
Proof.
  intros Hk Hv. revert E. induction env as [|s env IH]; intros E; simpl.
  - rewrite SplitN_eq_entry.
    + simpl. unfold Os.Setenv. rewrite Hk, Hv. simpl. intros [= <-].
      apply lookup_insert_eq.
    + unfold Os.valid_key in Hk.
      apply andb_true_iff in Hk as [Hk _]. apply andb_true_iff in Hk as [_ Hk].
      by apply negb_true_iff in Hk.
  - destruct (SplitN_eq s !! 0%nat); [|done].
    destruct (SplitN_eq s !! 1%nat); [apply IH | done].
Qed.

Lemma foldl_insert_pairs_other (l : list (string * string)) :
  ∀ (acc : Environ) (k : string),
    k ∉ l.*1 → foldl (λ m kv, <[kv.1 := kv.2]> m) acc l !! k = acc !! k.
Proof.
  induction l as [|[a b] l IH]; intros acc k Hk; simpl; [done|].
  simpl in Hk. rewrite IH.
  - apply lookup_insert_ne. intros ->. apply Hk, list_elem_of_here.
  - intros Hin. apply Hk. by apply list_elem_of_further.
Qed.

Lemma foldl_insert_pairs_here (l : list (string * string)) :
  ∀ (acc : Environ) (k v : string),
    NoDup l.*1 → (k, v) ∈ l →
    foldl (λ m kv, <[kv.1 := kv.2]> m) acc l !! k = Some v.
Proof.
  induction l as [|[a b] l IH]; intros acc k v Hnd Hin; simpl.
  - by apply elem_of_nil in Hin.
  - simpl in Hnd. apply NoDup_cons in Hnd as [Ha Hnd].
    apply elem_of_cons in Hin as [[= -> ->] | Hin]; [|by apply IH].
    rewrite foldl_insert_pairs_other; [apply lookup_insert_eq | done].
Qed.

Lemma setEnv_entries (l : list (string * string)) :
  ∀ acc : Environ,
    Forall (λ kv, Os.valid_key kv.1 = true ∧ Os.valid_value kv.2 = true) l →
    setEnv ((λ kv, kv.1 +:+ "=" +:+ kv.2) <$> l) acc
    = Some (foldl (λ m kv, <[kv.1 := kv.2]> m) acc l).
Proof.
  induction l as [|[k v] l IH]; intros acc Hvalid; [reflexivity|].
  apply Forall_cons in Hvalid as [[Hk Hv] Hvalid]. simpl in Hk, Hv.
  cbn [fmap list_fmap setEnv fst snd]. rewrite SplitN_eq_entry.
  - cbn [lookup list_lookup]. unfold Os.Setenv. rewrite Hk, Hv. simpl. by apply IH.
  - unfold Os.valid_key in Hk.
    apply andb_true_iff in Hk as [Hk _]. apply andb_true_iff in Hk as [_ Hk].
    by apply negb_true_iff in Hk.
Qed.

(** X19. [resetEnv] empties the environment, and the function it returns
    puts the environment back as [resetEnv] found it, whatever the
    environment holds when that function is called, provided every key and
    value of the environment found is one that [os.Setenv] accepts. *)
Theorem resetEnv_restores (order : Environ → list (string * string)) (E E' : Environ) :
  (∀ m, order m ≡ₚ map_to_list m) →
  (∀ k v, E !! k = Some v → Os.valid_key k = true ∧ Os.valid_value v = true) →
  (resetEnv order E).1 = ∅
  ∧ (resetEnv order E).2 E' = Some E.
Proof.
  intros Horder Hvalid. split; [reflexivity|].
  unfold resetEnv, Os.Environ_, Os.Clearenv. simpl.
  rewrite setEnv_entries.
  - f_equal. apply map_eq. intros k.
    destruct (E !! k) as [v|] eqn:Hk.
    + apply foldl_insert_pairs_here.
      * rewrite (Horder E). apply NoDup_fst_map_to_list.
      * rewrite (Horder E). by apply elem_of_map_to_list.
    + rewrite foldl_insert_pairs_other; [apply lookup_empty|].
      rewrite (Horder E). intros Hin.
      apply list_elem_of_fmap in Hin as ([k' v] & -> & Hin).
      apply elem_of_map_to_list in Hin. simpl in Hk. congruence.
  - apply Forall_forall. intros [k v] Hin. simpl.
    rewrite (Horder E) in Hin. apply elem_of_map_to_list in Hin. by apply Hvalid.
Qed.

(** * The claims on the test suite's inputs *)

Module Witness.
Import Tests.

Lemma registered_lookup (s : FlagSet) (name : string) :
  is_registered s name = true → formal s !! name = Some (registered s name).
Proof.
  unfold is_registered, registered. intros Hreg.
  apply bool_decide_eq_true in Hreg as [flag Hflag]. by rewrite Hflag.
Qed.

Lemma map_to_list_order : RangeOrder map_to_list.
Proof. intros m. reflexivity. Qed.

Lemma Int_wf (f : FlagSet) (name : string) (value : Z) : wf f → wf (Int f name value).
Proof.
  intros Hwf. unfold Int.
  destruct (Var f _ name "") as [f'|] eqn:Hvar; simpl; [|done].
  by apply (Var_wf _ _ _ _ _ Hwf Hvar).
Qed.

Lemma Bool_wf (f : FlagSet) (name : string) (value : bool) : wf f → wf (Bool f name value).
Proof.
  intros Hwf. unfold Bool.
  destruct (Var f _ name "") as [f'|] eqn:Hvar; simpl; [|done].
  by apply (Var_wf _ _ _ _ _ Hwf Hvar).
Qed.

Lemma override_wf : wf (set (configure override_proc override_options)).
Proof.
  change (wf (Int NewFlagSet "envflag_args_override_env" 0)). apply Int_wf, NewFlagSet_wf.
Qed.

Lemma simple_wf : wf (set (configure simple_proc simple_options)).
Proof. change (wf (Int NewFlagSet "envflag_simple" 0)). apply Int_wf, NewFlagSet_wf. Qed.

Lemma bool_wf (v : string) : wf (set (configure (bool_proc v) bool_options)).
Proof. change (wf (Bool NewFlagSet "bool" false)). apply Bool_wf, NewFlagSet_wf. Qed.

Lemma invalid_env_wf : wf (set (configure invalid_env_proc invalid_env_options)).
Proof.
  change (wf (Int NewFlagSet "envflag_invalid_env" (-1))). apply Int_wf, NewFlagSet_wf.
Qed.

Lemma keep_args_wf : wf (set (configure keep_args_proc keep_args_options)).
Proof.
  change (wf (Int NewFlagSet "envflag_keep_args" 0)). apply Int_wf, NewFlagSet_wf.
Qed.

(** The successful cases of [TestParse]: the flags read as [wantFlags] says
    and the positional arguments are [wantArgs]. *)
Example test_simple :
  err (Parse map_to_list simple_proc simple_options) = None
  ∧ value_of (final (Parse map_to_list simple_proc simple_options)) "envflag_simple"
    = Some "42".
Proof. split; vm_compute; reflexivity. Qed.

Example test_prefix :
  err (Parse map_to_list prefix_proc prefix_options) = None
  ∧ value_of (final (Parse map_to_list prefix_proc prefix_options)) "envflag_prefix"
    = Some "42".
Proof. split; vm_compute; reflexivity. Qed.

Example test_args_override_env :
  err (Parse map_to_list override_proc override_options) = None
  ∧ value_of (final (Parse map_to_list override_proc override_options))
      "envflag_args_override_env" = Some "42".
Proof. split; vm_compute; reflexivity. Qed.

Example test_keep_args :
  err (Parse map_to_list keep_args_proc keep_args_options) = None
  ∧ value_of (final (Parse map_to_list keep_args_proc keep_args_options))
      "envflag_keep_args" = Some "42"
  ∧ Args (final (Parse map_to_list keep_args_proc keep_args_options)) = ["keep"; "args"].
Proof. repeat split; vm_compute; reflexivity. Qed.

Example test_bool_words :
  (λ v, value_of (final (Parse map_to_list (bool_proc v) bool_options)) "bool")
    <$> ["true"; "YES"; "y"; "1"; "FALSE"; "no"; "N"; "0"]
  = Some <$> ["true"; "true"; "true"; "true"; "false"; "false"; "false"; "false"].
Proof. vm_compute. reflexivity. Qed.

(** A flag set to its default value by the argument list counts as set:
    the environment is not consulted. *)
Example set_to_default :
  err (Parse map_to_list same_as_default_proc same_as_default_options) = None
  ∧ value_of (final (Parse map_to_list same_as_default_proc same_as_default_options)) "n"
    = Some "7"
  ∧ looked (Parse map_to_list same_as_default_proc same_as_default_options) = [].
Proof. repeat split; vm_compute; reflexivity. Qed.

(** Test [args_override_env]: the flag reads 42 after the first pass and
    after [Parse], with 11 in the environment. *)
Lemma C1_witness :
  value_of (first_pass (configure override_proc override_options)).2
    "envflag_args_override_env" = Some "42"
  ∧ formal (final (Parse map_to_list override_proc override_options))
      !! "envflag_args_override_env"
    = formal (first_pass (configure override_proc override_options)).2
      !! "envflag_args_override_env".
Proof.
  split; [vm_compute; reflexivity|].
  assert (Hset : "envflag_args_override_env"
                 ∈ actual (first_pass (configure override_proc override_options)).2).
  { vm_compute. reflexivity. }
  exact (proj2 (proj2 (C1_command_line_wins map_to_list override_proc override_options
                         "envflag_args_override_env" map_to_list_order override_wf Hset))).
Defined.

(** Test [uppercase_bool]: [YES] reaches the bool flag as [true]. *)
Lemma C2_witness :
  env (environ (bool_proc "YES")) (prefix (configure (bool_proc "YES") bool_options) +:+ "bool")
    = Some "YES"
  ∧ spec_normalize "YES" = "true"
  ∧ ∃ val,
      Value_Set (Value_ bool_flag)
        (if isBoolFlag (Value_ bool_flag) then spec_normalize "YES" else "YES") = (val, None)
      ∧ formal (final (Parse map_to_list (bool_proc "YES") bool_options)) !! "bool"
        = Some (with_Value bool_flag val).
Proof.
  assert (Hv : env (environ (bool_proc "YES"))
                 (prefix (configure (bool_proc "YES") bool_options) +:+ "bool")
               = Some "YES") by (vm_compute; reflexivity).
  split; [exact Hv|]. split; [vm_compute; reflexivity|].
  assert (H1 : (first_pass (configure (bool_proc "YES") bool_options)).1 = None)
    by (vm_compute; reflexivity).
  assert (Hok : err (Parse map_to_list (bool_proc "YES") bool_options) = None)
    by (vm_compute; reflexivity).
  assert (Hflag : formal (set (configure (bool_proc "YES") bool_options)) !! "bool"
                  = Some bool_flag) by (vm_compute; reflexivity).
  assert (Hunset : "bool" ∉ actual (first_pass (configure (bool_proc "YES") bool_options)).2).
  { vm_compute. intros Hin. discriminate Hin. }
  assert (Htable : isBoolFlag (Value_ bool_flag) = true → Strings.isASCII "YES" = false →
                   mapToLower "YES" ∉ truthy ++ falsy)
    by (intros _ Hn; discriminate Hn).
  exact (proj2 (C2_environment_applies map_to_list (bool_proc "YES") bool_options
                  "bool" bool_flag map_to_list_order (bool_wf "YES") H1 Hflag Hunset)
           "YES" Hv Htable Hok).
Defined.

(** Test [invalid_bool]: [nope] is synthesized as it is and rejected. *)
Lemma C3_witness :
  mkArg "bool" "nope"
    ∈ synth (env_entries (prefix (configure (bool_proc "nope") bool_options))
               (environ (bool_proc "nope"))
               (map_to_list
                  (unset_of (first_pass (configure (bool_proc "nope") bool_options)).2)))
  ∧ err (Parse map_to_list (bool_proc "nope") bool_options) ≠ None.
Proof.
  assert (H1 : (first_pass (configure (bool_proc "nope") bool_options)).1 = None)
    by (vm_compute; reflexivity).
  assert (Hflag : formal (first_pass (configure (bool_proc "nope") bool_options)).2 !! "bool"
                  = Some bool_flag) by (vm_compute; reflexivity).
  assert (Hunset : "bool" ∉ actual (first_pass (configure (bool_proc "nope") bool_options)).2).
  { vm_compute. intros Hin. discriminate Hin. }
  assert (Hv : env (environ (bool_proc "nope"))
                 (prefix (configure (bool_proc "nope") bool_options) +:+ "bool") = Some "nope")
    by (vm_compute; reflexivity).
  assert (Htable : Strings.isASCII "nope" = false → mapToLower "nope" ∉ truthy ++ falsy)
    by (intros Hn; discriminate Hn).
  destruct (C3_boolean_normalization map_to_list (bool_proc "nope") bool_options
              "bool" bool_flag "nope" map_to_list_order (bool_wf "nope") H1 Hflag Hunset
              Hv Htable) as (Harg & Hrej & _).
  split; [exact Harg|]. apply Hrej. vm_compute. intros Hn. discriminate Hn.
Defined.

(** Test [prefix], and an environment with more variables that agrees on
    the one key looked up. *)
Lemma C4_witness :
  looked (Parse map_to_list prefix_proc prefix_options)
    = spec_key "PREFIX_" <$> ["envflag_prefix"]
  ∧ Parse map_to_list
      (mkProcess (CommandLine prefix_proc) (os_Args prefix_proc) prefix_environ)
      prefix_options
    = Parse map_to_list prefix_proc prefix_options.
Proof.
  assert (Hnames : (map_to_list
                      (unset_of (first_pass (configure prefix_proc prefix_options)).2)).*1
                   = ["envflag_prefix"]) by (vm_compute; reflexivity).
  assert (H1 : (first_pass (configure prefix_proc prefix_options)).1 = None)
    by (vm_compute; reflexivity).
  destruct (C4_environment_key map_to_list prefix_proc prefix_options prefix_environ)
    as (_ & Hlooked & Hsame).
  - rewrite Hnames. intros name Hin.
    apply list_elem_of_singleton in Hin as ->. vm_compute. reflexivity.
  - split; [|exact Hsame]. rewrite Hlooked, H1, Hnames. reflexivity.
Defined.

(** Test [invalid_env]: [Parse] returns the error of the second pass. *)
Lemma C5_witness :
  err (Parse map_to_list invalid_env_proc invalid_env_options)
    = Some (errInvalidValue "invalid_int" "envflag_invalid_env" errParse).
Proof.
  assert (H1 : (first_pass (configure invalid_env_proc invalid_env_options)).1 = None)
    by (vm_compute; reflexivity).
  assert (Hne : env_entries (prefix (configure invalid_env_proc invalid_env_options))
                  (environ invalid_env_proc)
                  (map_to_list
                     (unset_of (first_pass (configure invalid_env_proc invalid_env_options)).2))
                ≠ []).
  { vm_compute. intros Hn. discriminate Hn. }
  refine (proj1 (C5_second_pass_failure map_to_list invalid_env_proc invalid_env_options
                   (errInvalidValue "invalid_int" "envflag_invalid_env" errParse)
                   map_to_list_order invalid_env_wf H1 Hne _)).
  vm_compute. reflexivity.
Defined.

(** Test [invalid_arg]. *)
Lemma C6_witness :
  Parse map_to_list invalid_arg_proc invalid_arg_options
  = {| err := Some (errInvalidValue "invalid_int" "envflag_invalid_arg" errParse);
       final := (first_pass (configure invalid_arg_proc invalid_arg_options)).2;
       looked := [] |}.
Proof.
  assert (H1 : (first_pass (configure invalid_arg_proc invalid_arg_options)).1
               = Some (errInvalidValue "invalid_int" "envflag_invalid_arg" errParse))
    by (vm_compute; reflexivity).
  exact (proj1 (C6_first_pass_failure map_to_list invalid_arg_proc invalid_arg_options
                  (errInvalidValue "invalid_int" "envflag_invalid_arg" errParse) H1)).
Defined.

(** Test [keep_args]. *)
Lemma C7_witness :
  Args (first_pass (configure keep_args_proc keep_args_options)).2 = ["keep"; "args"]
  ∧ Args (final (Parse map_to_list keep_args_proc keep_args_options))
    = Args (first_pass (configure keep_args_proc keep_args_options)).2.
Proof.
  split; [vm_compute; reflexivity|].
  assert (H1 : (first_pass (configure keep_args_proc keep_args_options)).1 = None)
    by (vm_compute; reflexivity).
  assert (Hok : err (Parse map_to_list keep_args_proc keep_args_options) = None)
    by (vm_compute; reflexivity).
  exact (proj2 (proj2 (C7_positional_arguments map_to_list keep_args_proc keep_args_options
                         map_to_list_order keep_args_wf H1)) Hok).
Defined.

(** Test [simple]: the flag stays registered and has a value. *)
Lemma C8_witness :
  dom (formal (final (Parse map_to_list simple_proc simple_options)))
    = dom (formal (set (configure simple_proc simple_options)))
  ∧ is_Some (formal (final (Parse map_to_list simple_proc simple_options)) !! "envflag_simple").
Proof.
  assert (Hok : err (Parse map_to_list simple_proc simple_options) = None)
    by (vm_compute; reflexivity).
  assert (Hflag : formal (set (configure simple_proc simple_options)) !! "envflag_simple"
                  = Some simple_flag).
  { apply registered_lookup. vm_compute. reflexivity. }
  destruct (C8_every_flag_resolved map_to_list simple_proc simple_options
              "envflag_simple" simple_flag map_to_list_order simple_wf Hok Hflag)
    as (Hdom & Hsome & _).
  split; [exact Hdom | exact Hsome].
Defined.

(** A bool flag whose environment variable is set to the empty string. *)
Lemma C9_witness :
  "--bool="
    ∈ synth (env_entries (prefix (configure (bool_proc "") bool_options))
               (environ (bool_proc ""))
               (map_to_list (unset_of (first_pass (configure (bool_proc "") bool_options)).2)))
  ∧ err (Parse map_to_list (bool_proc "") bool_options) ≠ None.
Proof.
  assert (H1 : (first_pass (configure (bool_proc "") bool_options)).1 = None)
    by (vm_compute; reflexivity).
  assert (Hflag : formal (first_pass (configure (bool_proc "") bool_options)).2 !! "bool"
                  = Some bool_flag) by (vm_compute; reflexivity).
  assert (Hunset : "bool" ∉ actual (first_pass (configure (bool_proc "") bool_options)).2).
  { vm_compute. intros Hin. discriminate Hin. }
  assert (Hv : env (environ (bool_proc ""))
                 (prefix (configure (bool_proc "") bool_options) +:+ "bool") = Some "")
    by (vm_compute; reflexivity).
  destruct (C9_empty_environment_value map_to_list (bool_proc "") bool_options
              "bool" bool_flag map_to_list_order (bool_wf "") H1 Hflag Hunset Hv)
    as (Harg & _ & Hty).
  split; [exact Harg|]. apply Hty. right. reflexivity.
Defined.

(** C3, counterexample: [t] is none of the eight words, so it is passed
    through as it is, and the bool flag's [Set] accepts it: [Parse] succeeds. *)
Lemma C3_counterexample :
  (Strings.ToLower "t" ∉ truthy ++ falsy)
  ∧ normalize "t" = "t"
  ∧ err (Parse map_to_list (bool_proc "t") bool_options) = None
  ∧ value_of (final (Parse map_to_list (bool_proc "t") bool_options)) "bool" = Some "true".
Proof.
  split; [|split; [|split]]; [|vm_compute; reflexivity..].
  intros Hin. vm_compute in Hin.
  repeat (apply elem_of_cons in Hin as [Hin | Hin]; [discriminate Hin|]).
  by apply elem_of_nil in Hin.
Qed.

(** C5, counterexample: the int flag with default -1 and [invalid_int] in
    the environment reads 0, not -1, after the failed [Parse]. *)
Lemma C5_counterexample :
  value_of (set (configure invalid_env_proc invalid_env_options)) "envflag_invalid_env"
    = Some "-1"
  ∧ err (Parse map_to_list invalid_env_proc invalid_env_options)
    = Some (errInvalidValue "invalid_int" "envflag_invalid_env" errParse)
  ∧ value_of (final (Parse map_to_list invalid_env_proc invalid_env_options))
      "envflag_invalid_env" = Some "0"
  ∧ value_of (final (Parse map_to_list invalid_env_proc invalid_env_options))
      "envflag_invalid_env" ≠ Some "-1".
Proof.
  split; [|split; [|split]]; [vm_compute; reflexivity..|].
  vm_compute. intros Hn. discriminate Hn.
Qed.

(** C7, counterexample: with [invalid_int] in the environment and the one
    positional argument [x], the second pass fails and the flag set's
    positional arguments are [--] and [x], not [x]. *)
Lemma C7_counterexample :
  (first_pass (configure invalid_env_proc invalid_env_pos_options)).1 = None
  ∧ Args (first_pass (configure invalid_env_proc invalid_env_pos_options)).2 = ["x"]
  ∧ err (Parse map_to_list invalid_env_proc invalid_env_pos_options)
    = Some (errInvalidValue "invalid_int" "envflag_invalid_env" errParse)
  ∧ Args (final (Parse map_to_list invalid_env_proc invalid_env_pos_options)) = ["--"; "x"]
  ∧ Args (final (Parse map_to_list invalid_env_proc invalid_env_pos_options))
    ≠ Args (first_pass (configure invalid_env_proc invalid_env_pos_options)).2.
Proof.
  split; [|split; [|split; [|split]]]; [vm_compute; reflexivity..|].
  vm_compute. intros Hn. discriminate Hn.
Qed.

End Witness.

(** * The further properties on inputs *)

Module More.
Import Tests Inputs.

Lemma reversed_order : RangeOrder reversed.
Proof. intros m. unfold reversed. apply reverse_Permutation. Qed.

Lemma String_wf (f : FlagSet) (name : string) (value : string) :
  wf f → wf (String_ f name value).
Proof.
  intros Hwf. unfold String_.
  destruct (Var f _ name "") as [f'|] eqn:Hvar; simpl; [|done].
  by apply (Var_wf _ _ _ _ _ Hwf Hvar).
Qed.

Lemma dotted_wf : wf (set (configure dotted_proc dotted_options)).
Proof.
  change (wf (String_ (String_ NewFlagSet "a.b" "") "a-b" "")).
  apply String_wf, String_wf, NewFlagSet_wf.
Qed.

Lemma bare_wf : wf (set (configure bare_proc simple_options)).
Proof.
  change (wf (Int NewFlagSet "envflag_simple" 0)). apply Witness.Int_wf, NewFlagSet_wf.
Qed.

(** Test [simple] succeeds, so [42] is a value that [Set] accepts. *)
Lemma Parse_success_criterion_witness :
  (first_pass (configure simple_proc simple_options)).1 = None
  ∧ ∀ name flag v,
      formal (first_pass (configure simple_proc simple_options)).2 !! name = Some flag →
      name ∉ actual (first_pass (configure simple_proc simple_options)).2 →
      env (environ simple_proc) (prefix (configure simple_proc simple_options) +:+ name)
        = Some v →
      valid_name name = true
      ∧ (Value_Set (Value_ flag) (if isBoolFlag (Value_ flag) then normalize v else v)).2
        = None.
Proof.
  assert (Hok : err (Parse map_to_list simple_proc simple_options) = None)
    by (vm_compute; reflexivity).
  exact (proj1 (Parse_success_criterion map_to_list simple_proc simple_options
                  Witness.map_to_list_order Witness.simple_wf) Hok).
Defined.

(** Test [invalid_env]: the error is that of the int flag's [Set]. *)
Lemma Parse_environment_error_witness :
  ∃ name flag v,
    formal (first_pass (configure invalid_env_proc invalid_env_options)).2 !! name
      = Some flag
    ∧ (name ∉ actual (first_pass (configure invalid_env_proc invalid_env_options)).2)
    ∧ env (environ invalid_env_proc)
        (prefix (configure invalid_env_proc invalid_env_options) +:+ name) = Some v
    ∧ let w := if isBoolFlag (Value_ flag) then normalize v else v in
      if valid_name name then
        ∃ se, (Value_Set (Value_ flag) w).2 = Some se
              ∧ errInvalidValue "invalid_int" "envflag_invalid_env" errParse
                = (if isBoolFlag (Value_ flag) then errInvalidBoolValue w name se
                   else errInvalidValue w name se)
      else errInvalidValue "invalid_int" "envflag_invalid_env" errParse
           = errBadSyntax ("--" +:+ name +:+ "=" +:+ w).
Proof.
  assert (H1 : (first_pass (configure invalid_env_proc invalid_env_options)).1 = None)
    by (vm_compute; reflexivity).
  assert (Herr : err (Parse map_to_list invalid_env_proc invalid_env_options)
                 = Some (errInvalidValue "invalid_int" "envflag_invalid_env" errParse))
    by (vm_compute; reflexivity).
  exact (Parse_environment_error map_to_list invalid_env_proc invalid_env_options
           (errInvalidValue "invalid_int" "envflag_invalid_env" errParse)
           Witness.map_to_list_order Witness.invalid_env_wf H1 Herr).
Defined.

(** Two flags with values from the environment, visited in two orders. *)
Lemma Parse_order_independent_witness :
  err (Parse reversed dotted_proc dotted_options) = None
  ∧ final (Parse reversed dotted_proc dotted_options)
    = final (Parse map_to_list dotted_proc dotted_options)
  ∧ looked (Parse reversed dotted_proc dotted_options)
    ≡ₚ looked (Parse map_to_list dotted_proc dotted_options).
Proof.
  assert (Hok : err (Parse map_to_list dotted_proc dotted_options) = None)
    by (vm_compute; reflexivity).
  exact (Parse_order_independent map_to_list reversed dotted_proc dotted_options
           Witness.map_to_list_order reversed_order dotted_wf Hok).
Defined.

(** Test [simple]: the flag is marked as set after [Parse]. *)
Lemma Parse_marks_environment_flags_witness :
  "envflag_simple" ∈ actual (final (Parse map_to_list simple_proc simple_options)).
Proof.
  assert (Hok : err (Parse map_to_list simple_proc simple_options) = None)
    by (vm_compute; reflexivity).
  apply (proj2 (Parse_marks_environment_flags map_to_list simple_proc simple_options
                  "envflag_simple" Witness.map_to_list_order Witness.simple_wf Hok)).
  right. split; apply (bool_decide_unpack _); vm_compute; exact I.
Defined.

(** Test [simple], then [Parse] again with no argument. *)
Lemma Parse_again_witness :
  err (Parse map_to_list simple_proc
         [FlagSet_ (final (Parse map_to_list simple_proc simple_options)); Args_ [];
          Prefix (prefix (configure simple_proc simple_options))])
  = (Flag.Parse (final (Parse map_to_list simple_proc simple_options)) []).1
  ∧ final (Parse map_to_list simple_proc
             [FlagSet_ (final (Parse map_to_list simple_proc simple_options)); Args_ [];
              Prefix (prefix (configure simple_proc simple_options))])
    = (Flag.Parse (final (Parse map_to_list simple_proc simple_options)) []).2.
Proof.
  assert (Hok : err (Parse map_to_list simple_proc simple_options) = None)
    by (vm_compute; reflexivity).
  exact (Parse_again map_to_list map_to_list simple_proc simple_options []
           Witness.map_to_list_order Witness.map_to_list_order Witness.simple_wf Hok).
Defined.

(** Test [simple] in an empty environment. *)
Lemma Parse_without_environment_witness :
  err (Parse map_to_list bare_proc simple_options)
    = (first_pass (configure bare_proc simple_options)).1
  ∧ final (Parse map_to_list bare_proc simple_options)
    = (first_pass (configure bare_proc simple_options)).2.
Proof.
  apply (Parse_without_environment map_to_list bare_proc simple_options
           Witness.map_to_list_order bare_wf).
  intros name _. apply lookup_empty.
Defined.

(** Test [keep_args]. *)
Lemma Parse_args_suffix_witness :
  Args (final (Parse map_to_list keep_args_proc keep_args_options))
    `suffix_of` args_ (configure keep_args_proc keep_args_options).
Proof.
  assert (Hok : err (Parse map_to_list keep_args_proc keep_args_options) = None)
    by (vm_compute; reflexivity).
  exact (Parse_args_suffix map_to_list keep_args_proc keep_args_options
           Witness.map_to_list_order Witness.keep_args_wf Hok).
Defined.

(** Test [simple]: one registered flag, at most one lookup. *)
Lemma Parse_lookup_count_witness :
  (length (looked (Parse map_to_list simple_proc simple_options))
   ≤ size (formal (set (configure simple_proc simple_options))))%nat.
Proof.
  exact (proj2 (Parse_lookup_count map_to_list simple_proc simple_options
                  Witness.map_to_list_order Witness.simple_wf)).
Defined.

Lemma envKey_ascii_normal_form_witness :
  String.length (envKey "a.b-c") = String.length "a.b-c"
  ∧ all_bytes key_byte (envKey "a.b-c") = true
  ∧ Strings.isASCII (envKey "a.b-c") = true
  ∧ envKey (envKey "a.b-c") = envKey "a.b-c".
Proof. exact (envKey_ascii_normal_form "a.b-c" eq_refl). Defined.

Lemma envKey_prefix_witness :
  envKey ("my-app." +:+ "log.level") = envKey "my-app." +:+ envKey "log.level".
Proof. exact (envKey_prefix "my-app." "log.level" eq_refl eq_refl). Defined.

Lemma bool_environment_values_witness :
  Value_Set (mkValue boolValue false)
    (if isBoolFlag (mkValue boolValue false) then normalize "Yes" else "Yes")
  = (mkValue boolValue true, None).
Proof.
  refine (bool_environment_values "Yes" false _).
  intros Hn. discriminate Hn.
Defined.

(** Test [prefix] with a variable [envflag.prefix] added to the environment. *)
Lemma Parse_ignores_dotted_variables_witness :
  Parse map_to_list
    (mkProcess (CommandLine prefix_proc) (os_Args prefix_proc) dotted_environ)
    prefix_options
  = Parse map_to_list prefix_proc prefix_options.
Proof.
  apply (Parse_ignores_dotted_variables map_to_list prefix_proc prefix_options
           dotted_environ).
  intros key Hdot _. unfold dotted_environ. apply lookup_insert_ne.
  intros <-. discriminate Hdot.
Defined.

Lemma setEnv_last_wins_witness :
  (<["A" := "x=y"]> (<["A" := "1"]> (∅ : Environ))) !! "A" = Some "x=y".
Proof.
  apply (setEnv_last_wins ["A=1"] "A" "x=y" ∅); [reflexivity | reflexivity |].
  reflexivity.
Defined.

Lemma resetEnv_restores_witness :
  (resetEnv map_to_list home_environ).1 = ∅
  ∧ (resetEnv map_to_list home_environ).2 (environ simple_proc) = Some home_environ.
Proof.
  apply (resetEnv_restores map_to_list home_environ (environ simple_proc)).
  - intros m. reflexivity.
  - intros k v Hk. unfold home_environ in Hk.
    apply lookup_singleton_Some in Hk as [<- <-]. split; reflexivity.
Defined.

End More.
